(** * Elliptic-curve arithmetic and ElGamal encryption of [src/ECC.py]

    A shallow embedding of the core of [ECC.py]: the modular helpers
    [inv], [egcd] and [sqrt], the curve class [EC], the [ElGamal] class and
    the Koblitz message codec.  Python integers are [Z]; Python's [%] with a
    non-zero divisor is [Z.modulo] (both take the sign of the divisor) and
    [divmod] is [Z.div]/[Z.modulo].  Exceptions are the constructors of
    [error], threaded through the small error monad [result]. *)

From Stdlib Require Import ZArith Lia List String Ascii Bool.
From Stdlib Require Import Field Zdivisibility Zmod.ZmodDef Zmod.ZmodBase Zmod.ZmodInv.
Import ListNotations.
Open Scope Z_scope.

(** ** Exceptions and the error monad *)

Inductive error : Type :=
| AssertionError
| ZeroDivisionError
| NotFound          (** [Exception("not found")] raised by [sqrt] *)
| InvalidOrder      (** [Exception("Invalid order")] raised by [EC.order] *)
| ValueError.       (** raised by [chr] out of range *)

Inductive result (A : Type) : Type :=
| Ok (v : A)
| Err (e : error).
Arguments Ok {A} v.
Arguments Err {A} e.

Definition bind {A B} (m : result A) (k : A -> result B) : result B :=
  match m with
  | Ok v => k v
  | Err e => Err e
  end.

Notation "'let*' x ':=' m 'in' k" := (bind m (fun x => k))
  (at level 200, x name, m at level 100, k at level 200).

(** Python's [assert c]. *)
Definition assert (c : bool) : result unit :=
  if c then Ok tt else Err AssertionError.

Definition is_ok {A} (m : result A) : bool :=
  match m with Ok _ => true | Err _ => false end.

(** ** Modular helpers (lines 12-47) *)

(** The [while b > 0] loop of [egcd], run for at most [fuel] rounds.
    Each round replaces [(a, b)] by [(b, a mod b)]; from the second round
    on [a mod b] is less than half of [a], so [2 * log2 b + 3] rounds always
    reach the exit (lemma [egcd_loop_fuel] below). *)
Fixpoint egcd_loop (fuel : nat) (a b s0 s1 t0 t1 : Z) : Z * Z * Z :=
  match fuel with
  | O => (s0, t0, a)
  | S fuel' =>
      if 0 <? b then
        let qt := a / b in
        let r := a mod b in
        egcd_loop fuel' b r s1 (s0 - qt * s1) t1 (t0 - qt * t1)
      else (s0, t0, a)
  end.

Definition egcd_fuel (b : Z) : nat := Z.to_nat (2 * Z.log2 b + 3).

Definition egcd (a b : Z) : Z * Z * Z :=
  egcd_loop (egcd_fuel b) a b 1 0 0 1.

(** [egcd(n, q)[0] % q], for a non-zero [q]. *)
Definition inv_z (n q : Z) : Z :=
  let '(s, _, _) := egcd n q in s mod q.

(** [inv(n, q)]: the only exception Python can raise here is the
    [ZeroDivisionError] of [% q] when [q = 0]. *)
Definition inv (n q : Z) : result Z :=
  if q =? 0 then Err ZeroDivisionError else Ok (inv_z n q).

(** [for i in range(1, q): if i * i % q == n: return (i, q - i)] *)
Fixpoint sqrt_scan (k : nat) (i n q : Z) : option (Z * Z) :=
  match k with
  | O => None
  | S k' => if (i * i) mod q =? n then Some (i, q - i)
            else sqrt_scan k' (i + 1) n q
  end.

Definition sqrt (n q : Z) : result (Z * Z) :=
  let* _ := assert (n <? q) in
  match sqrt_scan (Z.to_nat (q - 1)) 1 n q with
  | Some r => Ok r
  | None => Err NotFound
  end.

(** ** Points and curves (lines 50-155) *)

Record Coord : Type := mkCoord { x : Z; y : Z }.

Definition Coord_eqb (p1 p2 : Coord) : bool :=
  (x p1 =? x p2) && (y p1 =? y p2).

Record EC : Type := mkEC { a : Z; b : Z; q : Z }.

(** [EC(a, b, q)] with the constructor's assertion. *)
Definition make_EC (a b q : Z) : result EC :=
  let* _ := assert ((0 <? a) && (a <? q) && (0 <? b) && (b <? q) && (2 <? q)) in
  Ok (mkEC a b q).

(** The object invariant established by [make_EC]. *)
Definition wf_EC (ec : EC) : Prop :=
  0 < a ec < q ec /\ 0 < b ec < q ec /\ 2 < q ec.

(** [self.zero = Coord(0, 0)] *)
Definition zero : Coord := mkCoord 0 0.

Definition is_valid (ec : EC) (p : Coord) : bool :=
  if Coord_eqb p zero then true
  else (y p ^ 2) mod q ec =? (x p ^ 3 + a ec * x p + b ec) mod q ec.

(** [EC.at] ([at] is a keyword of Rocq, hence the prime). *)
Definition at' (ec : EC) (x0 : Z) : result (Coord * Coord) :=
  let* _ := assert (x0 <? q ec) in
  let ysq := (x0 ^ 3 + a ec * x0 + b ec) mod q ec in
  let* r := sqrt ysq (q ec) in
  let '(y0, my) := r in
  Ok (mkCoord x0 y0, mkCoord x0 my).

Definition neg (ec : EC) (p : Coord) : Coord :=
  mkCoord (x p) ((- y p) mod q ec).

(** [EC.add]; the modulus of a curve satisfies [q > 2], so [inv] is
    [inv_z] there (lemma [inv_nonzero]). *)
Definition add (ec : EC) (p1 p2 : Coord) : Coord :=
  if Coord_eqb p1 zero then p2 else
  if Coord_eqb p2 zero then p1 else
  if (x p1 =? x p2) && (negb (y p1 =? y p2) || (y p1 =? 0)) then zero else
  let l :=
    if x p1 =? x p2
    then (3 * x p1 * x p1 + a ec) * inv_z (2 * y p1) (q ec) mod q ec
    else (y p2 - y p1) * inv_z (x p2 - x p1) (q ec) mod q ec in
  let x3 := (l * l - x p1 - x p2) mod q ec in
  let y3 := (l * (x p1 - x3) - y p1) mod q ec in
  mkCoord x3 y3.

(** The double-and-add loop of [EC.mul] on a positive scalar, one round
    per binary digit from the least significant one: a digit 1 adds [m2]
    to [r]; every round doubles [m2] and shifts [n] right.  In the last
    round ([n = 1]) the doubled [m2] is discarded. *)
Fixpoint mul_loop (ec : EC) (r m2 : Coord) (n : positive) : Coord :=
  match n with
  | xH => add ec r m2
  | xO n' => mul_loop ec r (add ec m2 m2) n'
  | xI n' => mul_loop ec (add ec r m2) (add ec m2 m2) n'
  end.

(** [EC.mul]: the loop runs only while [0 < n]. *)
Definition mul (ec : EC) (p : Coord) (n : Z) : Coord :=
  match n with
  | Zpos n' => mul_loop ec zero p n'
  | _ => zero
  end.

(** [for i in range(1, self.q + 1): if self.mul(g, i) == self.zero: return i] *)
Fixpoint order_scan (ec : EC) (g : Coord) (k : nat) (i : Z) : result Z :=
  match k with
  | O => Err InvalidOrder
  | S k' => if Coord_eqb (mul ec g i) zero then Ok i
            else order_scan ec g k' (i + 1)
  end.

Definition order (ec : EC) (g : Coord) : result Z :=
  let* _ := assert (is_valid ec g && negb (Coord_eqb g zero)) in
  order_scan ec g (Z.to_nat (q ec)) 1.

(** ** ElGamal (lines 158-207) *)

Record ElGamal : Type := mkElGamal { eg_ec : EC; eg_g : Coord; eg_n : Z }.

(** [ElGamal(ec, g)]: the constructor computes [self.n = ec.order(g)]. *)
Definition make_ElGamal (ec : EC) (g : Coord) : result ElGamal :=
  let* _ := assert (is_valid ec g) in
  let* n := order ec g in
  Ok (mkElGamal ec g n).

Definition gen (eg : ElGamal) (priv : Z) : Coord :=
  mul (eg_ec eg) (eg_g eg) priv.

(** [enc]: the masking-only encryption, returning [c2] alone. *)
Definition enc (eg : ElGamal) (plain pub : Coord) (r : Z) : result Coord :=
  let ec := eg_ec eg in
  let* _ := assert (is_valid ec plain) in
  let* _ := assert (is_valid ec pub) in
  Ok (add ec plain (mul ec pub r)).

(** [enc2]: the pair-returning encryption [(c1, c2)]. *)
Definition enc2 (eg : ElGamal) (plain pub : Coord) (r : Z) : result (Coord * Coord) :=
  let ec := eg_ec eg in
  let* _ := assert (is_valid ec plain) in
  let* _ := assert (is_valid ec pub) in
  Ok (mul ec (eg_g eg) r, add ec plain (mul ec pub r)).

Definition dec (eg : ElGamal) (cipher : Coord * Coord) (priv : Z) : result Coord :=
  let ec := eg_ec eg in
  let '(c1, c2) := cipher in
  let* _ := assert (is_valid ec c1 && is_valid ec c2) in
  Ok (add ec c2 (neg ec (mul ec c1 priv))).

(** ** Message codec (lines 210-258) *)

(** A Python [str] is handled through its code points [ord(c)]. *)
Definition ords (s : string) : list Z :=
  map (fun c => Z.of_nat (nat_of_ascii c)) (list_ascii_of_string s).

Definition max_bits : Z := 20.

(** Python's [a % b], raising on a zero divisor. *)
Definition pymod (a0 b0 : Z) : result Z :=
  if b0 =? 0 then Err ZeroDivisionError else Ok (a0 mod b0).

(** One attempt of the [try] block of [map_to_point_koblitz]. *)
Definition koblitz_try (m : Z) (ec : EC) (bit : Z) : result Coord :=
  let* x0 := pymod (m * max_bits + bit) (q ec) in
  let* ps := at' ec x0 in
  Ok (fst ps).

(** [for bit in range(bit, max_bits): try: ... return p except: pass];
    falling off the end returns [None]. *)
Fixpoint koblitz_scan (m : Z) (ec : EC) (k : nat) (bit : Z) : option Coord :=
  match k with
  | O => None
  | S k' =>
      match koblitz_try m ec bit with
      | Ok p => Some p
      | Err _ => koblitz_scan m ec k' (bit + 1)
      end
  end.

Definition map_to_point_koblitz (m : Z) (ec : EC) : option Coord :=
  koblitz_scan m ec (Z.to_nat (max_bits - 1)) 1.

Definition map_to_points_koblitz (message : list Z) (ec : EC) : list (option Coord) :=
  map (fun c => map_to_point_koblitz c ec) message.

(** Python's [round(x / 20)] for an integer [x]: round half to even.  The
    float quotient is exact at the ties [x = 20 k + 10], and elsewhere it is
    at least [0.05] away from a half, so rounding the exact rational agrees
    with Python for every [x] of the size used here. *)
Definition round_div (x0 d : Z) : Z :=
  let qt := x0 / d in
  let r := x0 mod d in
  if 2 * r <? d then qt
  else if d <? 2 * r then qt + 1
  else if Z.even qt then qt else qt + 1.

(** [chr(i)] *)
Definition chr (i : Z) : result Z :=
  if (0 <=? i) && (i <? 1114112) then Ok i else Err ValueError.

Fixpoint mapM {A B} (f : A -> result B) (l : list A) : result (list B) :=
  match l with
  | [] => Ok []
  | h :: t => let* v := f h in let* vs := mapM f t in Ok (v :: vs)
  end.

(** [map_to_chars(points)], on the x-coordinates [int(point)] of the
    points; the result string as its list of code points. *)
Definition map_to_chars (points : list Z) : result (list Z) :=
  mapM (fun p => chr (round_div p max_bits)) points.

(** [get_eg_g(q, ec)] of the GUI: the first [g] of [ec.at(i)], [i] in
    [range(q)], whose order can be computed; [None] when there is none. *)
Fixpoint get_eg_g_scan (ec : EC) (k : nat) (i : Z) : option Coord :=
  match k with
  | O => None
  | S k' =>
      match at' ec i with
      | Ok (g, _) =>
          match order ec g with
          | Ok o => if o <=? q ec then Some g else get_eg_g_scan ec k' (i + 1)
          | Err _ => get_eg_g_scan ec k' (i + 1)
          end
      | Err _ => get_eg_g_scan ec k' (i + 1)
      end
  end.

Definition get_eg_g (q0 : Z) (ec : EC) : option Coord :=
  get_eg_g_scan ec (Z.to_nat q0) 0.

(** A point of [map_to_points_koblitz]; [None] reaches [enc2], whose
    [is_valid(None)] fails with an [AttributeError]. *)
Definition some_point (p : option Coord) : result Coord :=
  match p with Some c => Ok c | None => Err AssertionError end.

(** The encryption and decryption paths of the GUI on one message: curve
    [(a, b, q)], base point from [get_eg_g], Koblitz encoding,
    [encrypt_points2] with [pub = eg.gen(priv)] and nonce [r], [eg.dec] of
    every pair and [map_to_chars] of the recovered x-coordinates. *)
Definition round_trip (a0 b0 q0 priv r : Z) (message : list Z) : result (list Z) :=
  let* ec := make_EC a0 b0 q0 in
  let* g := some_point (get_eg_g q0 ec) in
  let* eg := make_ElGamal ec g in
  let* points := mapM some_point (map_to_points_koblitz message ec) in
  let pub := gen eg priv in
  let* ciphers := mapM (fun p => enc2 eg p pub r) points in
  let* plains := mapM (fun c => dec eg c priv) ciphers in
  map_to_chars (map x plains).

(** ** The other helpers of [ECC.py] (lines 210-511) *)

(** [map_to_points_ascii(message, ec)]: the first point of [ec.at(ord(c))]
    for every character in turn; an exception of [at] ends the loop. *)
Definition map_to_points_ascii (message : list Z) (ec : EC) : result (list Coord) :=
  mapM (fun c => let* ps := at' ec c in Ok (fst ps)) message.

(** [encrypt_points(points, eg, pub, rand)]: the list comprehension
    raises the first exception of [eg.enc]. *)
Definition encrypt_points (points : list Coord) (eg : ElGamal) (pub : Coord) (rand : Z)
  : result (list Coord) :=
  mapM (fun p => enc eg p pub rand) points.

Definition encrypt_points2 (points : list Coord) (eg : ElGamal) (pub : Coord) (rand : Z)
  : result (list (Coord * Coord)) :=
  mapM (fun p => enc2 eg p pub rand) points.

(** *** Python's [str] on text of code points below 256

    The validators and the cipher-text parser of the GUI work on Python
    strings; the model covers text whose characters lie in
    [U+0000..U+00FF], one [ascii] per character, with the character classes
    of Python's Unicode database on that range. *)
Definition in_range (lo hi : nat) (c : ascii) : bool :=
  (lo <=? nat_of_ascii c)%nat && (nat_of_ascii c <=? hi)%nat.

Definition py_isalpha_char (c : ascii) : bool :=
  in_range 65 90 c || in_range 97 122 c || in_range 170 170 c || in_range 181 181 c ||
  in_range 186 186 c || in_range 192 214 c || in_range 216 246 c || in_range 248 255 c.

Definition py_isnumeric_char (c : ascii) : bool :=
  in_range 48 57 c || in_range 178 179 c || in_range 185 185 c || in_range 188 190 c.

Definition py_isdecimal_char (c : ascii) : bool := in_range 48 57 c.

Definition py_isspace_char (c : ascii) : bool :=
  in_range 9 13 c || in_range 28 32 c || in_range 133 133 c || in_range 160 160 c.

(** [s.isalpha()] and [s.isnumeric()], both false on the empty string. *)
Definition py_isalpha (s : list ascii) : bool :=
  match s with [] => false | _ => forallb py_isalpha_char s end.


Definition digit_value (c : ascii) : Z := Z.of_nat (nat_of_ascii c) - 48.

(** The digits of [int(s)], [d ("_"? d)*]: [after] tells whether the
    previous character was a digit. *)
Fixpoint int_digits (acc : Z) (after : bool) (s : list ascii) : option Z :=
  match s with
  | [] => if after then Some acc else None
  | c :: t =>
      if py_isdecimal_char c then int_digits (acc * 10 + digit_value c) true t
      else if after && Ascii.eqb c "_"%char then int_digits acc false t
      else None
  end.

Fixpoint lstrip (s : list ascii) : list ascii :=
  match s with
  | c :: t => if py_isspace_char c then lstrip t else s
  | [] => []
  end.

Definition py_strip (s : list ascii) : list ascii := rev (lstrip (rev (lstrip s))).

(** [int(s)]: white space around, an optional sign, then the digits;
    anything else raises [ValueError]. *)
Definition py_int (s : list ascii) : result Z :=
  let body := py_strip s in
  let r := match body with
           | c :: t =>
               if Ascii.eqb c "-"%char then option_map Z.opp (int_digits 0 false t)
               else if Ascii.eqb c "+"%char then int_digits 0 false t
               else int_digits 0 false body
           | [] => None
           end in
  match r with Some v => Ok v | None => Err ValueError end.

(** [s.split()]: the maximal runs of characters that are not white space. *)
Fixpoint py_split_aux (s cur : list ascii) : list (list ascii) :=
  match s with
  | [] => match cur with [] => [] | _ => [rev cur] end
  | c :: t =>
      if py_isspace_char c then
        match cur with [] => py_split_aux t [] | _ => rev cur :: py_split_aux t [] end
      else py_split_aux t (c :: cur)
  end.

Definition py_split (s : list ascii) : list (list ascii) := py_split_aux s [].

(** *** The validators (lines 261-289) *)

Definition upper_case_letters_validator (input : string) : bool :=
  match list_ascii_of_string input with [] => true | s => py_isalpha s end.



(** *** Curve checks of the GUI (lines 392-396 and 502-511), on the integer
    values [a], [b], [q] read from the entries *)

Definition is_valid_eg (a0 b0 q0 : Z) : result bool :=
  let* r := pymod (4 * a0 ^ 3 + 27 * b0 ^ 2) q0 in
  Ok (negb (r =? 0)).

(** [validate_coffs()]: [true] stands for ["all right"], [false] for
    [False].  Its condition parses as [4 * a^3 + ((27 * b^2) % q) != 0]. *)
Definition validate_coffs (a0 b0 q0 : Z) : result bool :=
  let* r := pymod (27 * b0 ^ 2) q0 in
  Ok (negb (4 * a0 ^ 3 + r =? 0)).

(** *** The cipher-text reader of [decrypt_message] (lines 469-497) *)

(** The exceptions of the reader: those of [error] and the [IndexError] of
    [cipher_list[i + k]] past the end. *)
Inductive presult (A : Type) : Type :=
| POk (v : A)
| PErr (e : error)
| IndexError.
Arguments POk {A} v.
Arguments PErr {A} e.
Arguments IndexError {A}.

Definition lift {A} (m : result A) : presult A :=
  match m with Ok v => POk v | Err e => PErr e end.

Definition pbind {A B} (m : presult A) (k : A -> presult B) : presult B :=
  match m with
  | POk v => k v
  | PErr e => PErr e
  | IndexError => IndexError
  end.

Notation "'let+' x ':=' m 'in' k" := (pbind m (fun x => k))
  (at level 200, x name, m at level 100, k at level 200).

(** The loop dropping [')'], ['('] and [','] from the text. *)
Definition filter_cipher_text (s : list ascii) : list ascii :=
  filter (fun c => negb (Ascii.eqb c ")"%char || Ascii.eqb c "("%char || Ascii.eqb c ","%char)) s.

(** [for i in range(len(cipher_list)): if i % 4 == 0: ...]: the four
    [int] calls of every index [i = 0, 4, 8, ...] in order. *)
Fixpoint parse_cipher_list (l : list (list ascii)) : presult (list (Coord * Coord)) :=
  match l with
  | [] => POk []
  | t0 :: r0 =>
      let+ x1 := lift (py_int t0) in
      match r0 with
      | [] => IndexError
      | t1 :: r1 =>
          let+ y1 := lift (py_int t1) in
          match r1 with
          | [] => IndexError
          | t2 :: r2 =>
              let+ x2 := lift (py_int t2) in
              match r2 with
              | [] => IndexError
              | t3 :: r3 =>
                  let+ y2 := lift (py_int t3) in
                  let+ rest := parse_cipher_list r3 in
                  POk ((mkCoord x1 y1, mkCoord x2 y2) :: rest)
              end
          end
      end
  end.

(** [decrypt_message] from the text read: parse, [eg.dec] of every pair
    with [priv = 5], then [map_to_chars] of the [str(x)] of every point
    ([int(str(x))] is [x]). *)
Definition decrypt_cipher_text (eg : ElGamal) (cipher_text : string) : presult (list Z) :=
  let+ points := parse_cipher_list
                   (py_split (filter_cipher_text (list_ascii_of_string cipher_text))) in
  let+ plain_points := lift (mapM (fun c => dec eg c 5) points) in
  lift (map_to_chars (map x plain_points)).

(** Python's [str(n)] for an integer: a minus sign, then the decimal
    digits without leading zeros; [fuel] bounds the number of digits. *)
Fixpoint str_digits (fuel : nat) (n : Z) (acc : list ascii) : list ascii :=
  match fuel with
  | O => acc
  | S f =>
      let acc' := ascii_of_nat (Z.to_nat (n mod 10 + 48)) :: acc in
      if n <? 10 then acc' else str_digits f (n / 10) acc'
  end.

Definition py_str_int (n : Z) : list ascii :=
  if n <? 0 then "-"%char :: str_digits (S (Z.to_nat (Z.log2 (- n)))) (- n) []
  else str_digits (S (Z.to_nat (Z.log2 n))) n [].

(** The text [(x1, y1) (x2, y2)] of a cipher pair, followed by a new line. *)
Definition show_cipher (c : Coord * Coord) : list ascii :=
  let '(c1, c2) := c in
  ["("%char] ++ py_str_int (x c1) ++ [","%char; " "%char] ++ py_str_int (y c1) ++
  [")"%char; " "%char; "("%char] ++ py_str_int (x c2) ++ [","%char; " "%char] ++
  py_str_int (y c2) ++ [")"%char; "010"%char].

Definition show_ciphers (l : list (Coord * Coord)) : string :=
  string_of_list_ascii (List.concat (map show_cipher l)).

(** [get_eg_g]'s scan keeps the first [x] whose [at] and [order] succeed. *)
Definition gen_ok (ec : EC) (i : Z) : bool :=
  match at' ec i with Ok (g, _) => is_ok (order ec g) | Err _ => false end.

Definition digits_step (acc : Z) (c : ascii) : Z := acc * 10 + digit_value c.

(** *** The curve group over [Z/qZ], the reference for [EC.add] *)

Inductive pt (m : Z) : Type := Inf | Aff (x y : Zmod m).
Arguments Inf {m}. Arguments Aff {m} x y.

Section Defs.
Context {m : Z}.
Local Open Scope Zmod_scope.
Definition c2 : Zmod m := 1 + 1.
Definition c3 : Zmod m := 1 + 1 + 1.
Definition onc (a b : Zmod m) (P : pt m) : Prop :=
  match P with Inf => True | Aff x y => y * y = x * x * x + a * x + b end.
Definition negF (P : pt m) : pt m := match P with Inf => Inf | Aff x y => Aff x (- y) end.
Definition addF (a : Zmod m) (P Q : pt m) : pt m :=
  match P, Q with
  | Inf, _ => Q
  | _, Inf => P
  | Aff x1 y1, Aff x2 y2 =>
    if Zmod.eqb x1 x2 && (negb (Zmod.eqb y1 y2) || Zmod.eqb y1 0) then Inf else
    let l := if Zmod.eqb x1 x2 then (c3 * x1 * x1 + a) * Zmod.inv (c2 * y1)
             else (y2 - y1) * Zmod.inv (x2 - x1) in
    let x3 := l * l - x1 - x2 in
    Aff x3 (l * (x1 - x3) - y1)
  end.
Definition disc (a b : Zmod m) : Zmod m := c2 * c2 * a * a * a + c3 * c3 * c3 * b * b.
Definition cl (x1 y1 x2 y2 : Zmod m) := (y2 - y1) * Zmod.inv (x2 - x1).
Definition dl (a x1 y1 : Zmod m) := (c3 * x1 * x1 + a) * Zmod.inv (c2 * y1).
Definition tx (l x1 x2 : Zmod m) := l * l - x1 - x2.
Definition ty (l x1 y1 x2 : Zmod m) := l * (x1 - tx l x1 x2) - y1.
End Defs.

Definition in_range_pt (ec : EC) (p : Coord) : Prop :=
  0 <= x p < q ec /\ 0 <= y p < q ec.

Definition emb (ec : EC) (p : Coord) : pt (q ec) :=
  if Coord_eqb p zero then Inf
  else Aff (Zmod.of_Z (q ec) (x p)) (Zmod.of_Z (q ec) (y p)).

Definition aF (ec : EC) : Zmod (q ec) := Zmod.of_Z (q ec) (a ec).
Definition bF (ec : EC) : Zmod (q ec) := Zmod.of_Z (q ec) (b ec).


(** *** A small curve for the examples: [y^2 = x^3 + x + 1] modulo [5],
    and the ElGamal object [ElGamal(ec, (2, 1))], whose generator has
    order [3]. *)
Definition ec_1_1_5 : EC := mkEC 1 1 5.

Definition eg_1_1_5 : ElGamal := mkElGamal ec_1_1_5 (mkCoord 2 1) 3.

(** * Properties *)

(** ** Basic facts about the model *)

Lemma Coord_eqb_eq (p1 p2 : Coord) : Coord_eqb p1 p2 = true <-> p1 = p2.
Proof.
  destruct p1 as [x1 y1], p2 as [x2 y2]; unfold Coord_eqb; simpl.
  rewrite andb_true_iff, !Z.eqb_eq; split.
  - intros [-> ->]; reflexivity.
  - intros H; injection H; auto.
Qed.

Lemma Coord_eqb_neq (p1 p2 : Coord) : Coord_eqb p1 p2 = false <-> p1 <> p2.
Proof.
  rewrite <- Coord_eqb_eq; destruct (Coord_eqb p1 p2); intuition congruence.
Qed.

Lemma inv_nonzero (n q0 : Z) : q0 <> 0 -> inv n q0 = Ok (inv_z n q0).
Proof. intros H; unfold inv; rewrite (proj2 (Z.eqb_neq _ _) H); reflexivity. Qed.

(** ** Euclid's loop *)

Section Egcd.

Variables n m : Z.

(** The loop invariant of [egcd(n, m)]: [a = n s0 + m t0],
    [b = n s1 + m t1] and [gcd(a, b) = gcd(n, m)]. *)
Definition egcd_inv (a0 b0 s0 s1 t0 t1 : Z) : Prop :=
  a0 = n * s0 + m * t0 /\ b0 = n * s1 + m * t1 /\ Z.gcd a0 b0 = Z.gcd n m.

Lemma egcd_inv_step a0 b0 s0 s1 t0 t1 :
  0 < b0 -> egcd_inv a0 b0 s0 s1 t0 t1 ->
  egcd_inv b0 (a0 mod b0) s1 (s0 - a0 / b0 * s1) t1 (t0 - a0 / b0 * t1).
Proof.
  intros Hb (Ha & Hb' & Hg); unfold egcd_inv; repeat split.
  - exact Hb'.
  - rewrite Z.mod_eq by lia. rewrite Ha, Hb' at 1. rewrite Hb'. ring.
  - rewrite <- Hg, Z.gcd_comm, Z.gcd_mod by lia. apply Z.gcd_comm.
Qed.

(** One round from [0 < b < a] lowers [log2 a + log2 b] by one at least. *)
Lemma egcd_measure_step a0 b0 :
  0 < b0 < a0 ->
  0 <= a0 mod b0 < b0 /\
  (Z.to_nat (Z.log2 b0 + Z.log2 (a0 mod b0) + 2) < Z.to_nat (Z.log2 a0 + Z.log2 b0 + 2))%nat.
Proof.
  intros Hab.
  pose proof (Z.mod_pos_bound a0 b0 ltac:(lia)) as Hr.
  pose proof (Z.div_mod a0 b0 ltac:(lia)) as Hd.
  assert (Hq : 1 <= a0 / b0) by (apply Z.div_le_lower_bound; lia).
  split; [lia|].
  destruct (Z.eq_dec (a0 mod b0) 0) as [H0|H0].
  - rewrite H0. assert (2 <= a0) by lia.
    pose proof (Z.log2_le_mono 2 a0 ltac:(lia)). simpl in *.
    pose proof (Z.log2_nonneg b0); lia.
  - assert (2 * (a0 mod b0) <= a0) by nia.
    assert (Z.log2 (a0 mod b0) < Z.log2 a0).
    { apply Z.log2_lt_pow2; [lia|].
      pose proof (Z.log2_spec a0 ltac:(lia)) as [_ Hs].
      rewrite Z.pow_succ_r in Hs by (apply Z.log2_nonneg). lia. }
    pose proof (Z.log2_nonneg (a0 mod b0)). pose proof (Z.log2_nonneg b0). lia.
Qed.

(** From a pair [0 <= b < a], [log2 a + log2 b + 2] rounds reach the exit
    of the loop; the result satisfies Bezout's identity with the gcd. *)
Lemma egcd_loop_spec fuel : forall a0 b0 s0 s1 t0 t1,
  0 <= b0 < a0 ->
  (Z.to_nat (Z.log2 a0 + Z.log2 b0 + 2) <= fuel)%nat ->
  egcd_inv a0 b0 s0 s1 t0 t1 ->
  let '(s, t, g) := egcd_loop fuel a0 b0 s0 s1 t0 t1 in
  n * s + m * t = g /\ g = Z.gcd n m.
Proof.
  induction fuel as [|fuel IH]; intros a0 b0 s0 s1 t0 t1 Hab Hf Hi.
  - pose proof (Z.log2_nonneg a0); pose proof (Z.log2_nonneg b0); lia.
  - cbn [egcd_loop]. destruct (Z.ltb_spec 0 b0) as [Hb|Hb].
    + destruct (egcd_measure_step a0 b0 ltac:(lia)) as [Hr Hlt].
      apply IH; [lia|lia|].
      apply egcd_inv_step; auto.
    + assert (b0 = 0) by lia; subst b0.
      destruct Hi as (Ha & Hb0 & Hg). split; [lia|].
      rewrite <- Hg, Z.gcd_0_r, Z.abs_eq; lia.
Qed.

End Egcd.

(** [egcd(n, m)] for [m > 0] returns [(s, t, gcd(n, m))] with
    [n s + m t = gcd(n, m)]. *)
Lemma egcd_correct (n m : Z) : 0 < m ->
  let '(s, t, g) := egcd n m in n * s + m * t = g /\ g = Z.gcd n m.
Proof.
  intros Hm. unfold egcd, egcd_fuel.
  pose proof (Z.log2_nonneg m) as Hl.
  replace (Z.to_nat (2 * Z.log2 m + 3)) with (S (Z.to_nat (2 * Z.log2 m + 2))) by lia.
  cbn [egcd_loop]. rewrite (proj2 (Z.ltb_lt 0 m) Hm).
  apply (egcd_loop_spec n m).
  - split; [apply Z.mod_pos_bound; lia|apply Z.mod_pos_bound; lia].
  - pose proof (Z.mod_pos_bound n m Hm) as Hmb. idtac.
    pose proof (Z.log2_le_mono (n mod m) m ltac:(lia)) as Hlm. lia.
  - apply egcd_inv_step; [exact Hm|]. unfold egcd_inv; repeat split; ring.
Qed.

(** The fuel of [egcd_loop] only bounds the rounds: past the
    [log2 a + log2 b + 2] rounds the loop needs, more fuel changes
    nothing, so [egcd] is the Python loop run to its exit. *)
Lemma egcd_loop_fuel fuel : forall fuel' a0 b0 s0 s1 t0 t1,
  0 <= b0 < a0 ->
  (Z.to_nat (Z.log2 a0 + Z.log2 b0 + 2) <= fuel)%nat -> (fuel <= fuel')%nat ->
  egcd_loop fuel' a0 b0 s0 s1 t0 t1 = egcd_loop fuel a0 b0 s0 s1 t0 t1.
Proof.
  induction fuel as [|fuel IH]; intros fuel' a0 b0 s0 s1 t0 t1 Hab Hf Hle.
  - pose proof (Z.log2_nonneg a0); pose proof (Z.log2_nonneg b0); lia.
  - destruct fuel' as [|fuel']; [lia|]. cbn [egcd_loop].
    destruct (Z.ltb_spec 0 b0) as [Hb|Hb]; [|reflexivity].
    destruct (egcd_measure_step a0 b0 ltac:(lia)) as [Hr Hlt].
    apply IH; lia.
Qed.

Lemma egcd_fuel_enough (n m : Z) (fuel : nat) :
  0 < m -> (egcd_fuel m <= fuel)%nat -> egcd_loop fuel n m 1 0 0 1 = egcd n m.
Proof.
  intros Hm Hf. unfold egcd, egcd_fuel in *.
  pose proof (Z.log2_nonneg m) as Hl.
  destruct fuel as [|fuel]; [lia|].
  replace (Z.to_nat (2 * Z.log2 m + 3)) with (S (Z.to_nat (2 * Z.log2 m + 2))) by lia.
  cbn [egcd_loop]. rewrite (proj2 (Z.ltb_lt 0 m) Hm).
  pose proof (Z.mod_pos_bound n m Hm) as Hmb.
  pose proof (Z.log2_le_mono (n mod m) m ltac:(lia)) as Hlm.
  apply egcd_loop_fuel; lia.
Qed.

(** [inv_z n m] is determined by Bezout's identity: [n * inv_z n m] is
    congruent to [gcd(n, m)]. *)
Lemma inv_z_mul (n m : Z) : 0 < m ->
  (n * inv_z n m) mod m = Z.gcd n m mod m /\ 0 <= inv_z n m < m.
Proof.
  intros Hm. unfold inv_z. pose proof (egcd_correct n m Hm) as He.
  destruct (egcd n m) as [[s t] g]. destruct He as [Hb Hg].
  split; [|apply Z.mod_pos_bound; exact Hm].
  rewrite Z.mul_mod_idemp_r by lia. rewrite <- Hg, <- Hb.
  rewrite (Z.mul_comm m t), Z.mod_add by lia. reflexivity.
Qed.

(** ** Square roots and points at [x] *)

Lemma sqrt_scan_some k : forall i n q0 u v,
  sqrt_scan k i n q0 = Some (u, v) ->
  v = q0 - u /\ (u * u) mod q0 = n /\ i <= u < i + Z.of_nat k.
Proof.
  induction k as [|k IH]; intros i n q0 u v H; simpl in H; [discriminate|].
  destruct (Z.eqb_spec ((i * i) mod q0) n) as [Hn|Hn].
  - injection H as <- <-. lia.
  - apply IH in H. lia.
Qed.

Lemma sqrt_scan_none k : forall i n q0,
  (forall j, (j * j) mod q0 <> n) -> sqrt_scan k i n q0 = None.
Proof.
  induction k as [|k IH]; intros i n q0 H; simpl; [reflexivity|].
  destruct (Z.eqb_spec ((i * i) mod q0) n) as [Hn|Hn]; [exfalso; exact (H i Hn)|].
  apply IH, H.
Qed.

(** ** The order scan *)

Lemma order_scan_ok ec g k : forall i j,
  order_scan ec g k i = Ok j <->
  i <= j < i + Z.of_nat k /\ mul ec g j = zero /\
  (forall j', i <= j' < j -> mul ec g j' <> zero).
Proof.
  induction k as [|k IH]; intros i j; simpl.
  - split; [discriminate|lia].
  - destruct (Coord_eqb (mul ec g i) zero) eqn:E.
    + apply Coord_eqb_eq in E. split.
      * intros H; injection H as <-. split; [lia|split; [exact E|intros; lia]].
      * intros (Hr & Hz & Hm). destruct (Z.eq_dec i j) as [->|Hne]; [reflexivity|].
        exfalso. apply (Hm i); [lia|exact E].
    + apply Coord_eqb_neq in E. rewrite IH. split.
      * intros (Hr & Hz & Hm). split; [lia|split; [exact Hz|]].
        intros j' Hj'. destruct (Z.eq_dec j' i) as [->|Hne]; [exact E|apply Hm; lia].
      * intros (Hr & Hz & Hm). assert (i <> j) by (intros ->; exact (E Hz)).
        split; [lia|split; [exact Hz|intros j' Hj'; apply Hm; lia]].
Qed.

Lemma order_scan_err ec g k : forall i e,
  order_scan ec g k i = Err e <->
  e = InvalidOrder /\ (forall j, i <= j < i + Z.of_nat k -> mul ec g j <> zero).
Proof.
  induction k as [|k IH]; intros i e; simpl.
  - split; [intros H; injection H as <-; split; [reflexivity|intros; lia]|].
    intros [-> _]; reflexivity.
  - destruct (Coord_eqb (mul ec g i) zero) eqn:E.
    + apply Coord_eqb_eq in E. split; [discriminate|].
      intros [_ H]. exfalso. apply (H i); [lia|exact E].
    + apply Coord_eqb_neq in E. rewrite IH. split.
      * intros [He H]. split; [exact He|]. intros j Hj.
        destruct (Z.eq_dec j i) as [->|Hne]; [exact E|apply H; lia].
      * intros [He H]. split; [exact He|intros j Hj; apply H; lia].
Qed.

(** ** The Koblitz scan *)

Lemma koblitz_scan_some m ec k : forall bit p,
  koblitz_scan m ec k bit = Some p <->
  exists j, bit <= j < bit + Z.of_nat k /\ koblitz_try m ec j = Ok p /\
    (forall j', bit <= j' < j -> is_ok (koblitz_try m ec j') = false).
Proof.
  induction k as [|k IH]; intros bit p; simpl.
  - split; [discriminate|intros (j & Hj & _); lia].
  - destruct (koblitz_try m ec bit) as [p0|e] eqn:E.
    + split.
      * intros H; injection H as <-. exists bit. split; [lia|split; [exact E|intros; lia]].
      * intros (j & Hj & Hp & Hm). destruct (Z.eq_dec j bit) as [->|Hne].
        -- rewrite E in Hp. injection Hp as ->. reflexivity.
        -- specialize (Hm bit ltac:(lia)). rewrite E in Hm. discriminate.
    + rewrite IH. split.
      * intros (j & Hj & Hp & Hm). exists j. split; [lia|split; [exact Hp|]].
        intros j' Hj'. destruct (Z.eq_dec j' bit) as [->|Hne]; [rewrite E; reflexivity|].
        apply Hm; lia.
      * intros (j & Hj & Hp & Hm). assert (j <> bit) by (intros ->; congruence).
        exists j. split; [lia|split; [exact Hp|intros j' Hj'; apply Hm; lia]].
Qed.

Lemma koblitz_scan_none m ec k : forall bit,
  koblitz_scan m ec k bit = None <->
  (forall j, bit <= j < bit + Z.of_nat k -> is_ok (koblitz_try m ec j) = false).
Proof.
  induction k as [|k IH]; intros bit; simpl.
  - split; [intros _ j Hj; lia|reflexivity].
  - destruct (koblitz_try m ec bit) as [p0|e] eqn:E.
    + split; [discriminate|]. intros H. specialize (H bit ltac:(lia)).
      rewrite E in H. discriminate.
    + rewrite IH. split.
      * intros H j Hj. destruct (Z.eq_dec j bit) as [->|Hne]; [rewrite E; reflexivity|].
        apply H; lia.
      * intros H j Hj. apply H; lia.
Qed.

Lemma koblitz_try_at m ec bit : 0 < q ec ->
  koblitz_try m ec bit =
  bind (at' ec ((m * max_bits + bit) mod q ec)) (fun ps => Ok (fst ps)).
Proof.
  intros Hq. unfold koblitz_try, pymod.
  rewrite (proj2 (Z.eqb_neq (q ec) 0) ltac:(lia)). reflexivity.
Qed.

(** ** Helpers for the other functions *)

Lemma mapM_ok {A B} (f : A -> result B) l : forall l',
  mapM f l = Ok l' <-> Forall2 (fun u v => f u = Ok v) l l'.
Proof.
  induction l as [|h t IH]; intros l'; simpl.
  - split; [intros H; injection H as <-; constructor|intros H; inversion H; reflexivity].
  - destruct (f h) as [v|e] eqn:E; simpl.
    + destruct (mapM f t) as [vs|e] eqn:Et; simpl.
      * split.
        -- intros H; injection H as <-. constructor; [exact E|apply IH; reflexivity].
        -- intros H; inversion H as [|? v' ? vs' Hv Hvs]; subst.
           rewrite E in Hv; injection Hv as <-.
           apply IH in Hvs. injection Hvs as <-. reflexivity.
      * split; [discriminate|].
        intros H; inversion H as [|? v' ? vs' Hv Hvs]; subst.
        apply IH in Hvs. discriminate.
    + split; [discriminate|].
      intros H; inversion H as [|? v' ? vs' Hv Hvs]; subst. congruence.
Qed.

Lemma mapM_err {A B} (f : A -> result B) l e :
  mapM f l = Err e ->
  exists u, In u l /\ f u = Err e.
Proof.
  induction l as [|h t IH]; simpl; [discriminate|].
  destruct (f h) as [v|e'] eqn:E; simpl.
  - destruct (mapM f t) as [vs|e'] eqn:Et; simpl; [discriminate|].
    intros H; injection H as ->. destruct (IH eq_refl) as (u & Hu & Hf).
    exists u; auto.
  - intros H; injection H as ->. exists h; auto.
Qed.

Lemma mapM_some_err {A B} (f : A -> result B) l u :
  In u l -> is_ok (f u) = false -> exists e, mapM f l = Err e.
Proof.
  induction l as [|h t IH]; simpl; [contradiction|].
  intros [->|Hin] Hu.
  - destruct (f u) as [v|e]; [discriminate|]. exists e; reflexivity.
  - destruct (f h) as [v|e]; simpl; [|exists e; reflexivity].
    destruct (IH Hin Hu) as [e He]. rewrite He. exists e; reflexivity.
Qed.

Lemma mapM_map {A B} (f : A -> B) l : mapM (fun u => Ok (f u)) l = Ok (map f l).
Proof. induction l as [|h t IH]; simpl; [reflexivity|rewrite IH; reflexivity]. Qed.

(** The scan of [sqrt] finds the least root in its range. *)
Lemma sqrt_scan_ok k : forall i n q0 u v,
  sqrt_scan k i n q0 = Some (u, v) <->
  i <= u < i + Z.of_nat k /\ (u * u) mod q0 = n /\ v = q0 - u /\
  (forall j, i <= j < u -> (j * j) mod q0 <> n).
Proof.
  induction k as [|k IH]; intros i n q0 u v; simpl.
  - split; [discriminate|lia].
  - destruct (Z.eqb_spec ((i * i) mod q0) n) as [Hn|Hn].
    + split.
      * intros H; injection H as <- <-. repeat split; try lia; auto.
      * intros (Hr & Hu & Hv & Hm). destruct (Z.eq_dec i u) as [<-|Hne].
        -- subst v; reflexivity.
        -- exfalso. apply (Hm i); [lia|exact Hn].
    + rewrite IH. split.
      * intros (Hr & Hu & Hv & Hm). repeat split; try lia; auto.
        intros j Hj. destruct (Z.eq_dec j i) as [->|Hne]; [exact Hn|apply Hm; lia].
      * intros (Hr & Hu & Hv & Hm). assert (i <> u) by (intros ->; exact (Hn Hu)).
        repeat split; try lia; auto. intros j Hj; apply Hm; lia.
Qed.

Lemma sqrt_scan_none_iff k : forall i n q0,
  sqrt_scan k i n q0 = None <->
  (forall j, i <= j < i + Z.of_nat k -> (j * j) mod q0 <> n).
Proof.
  induction k as [|k IH]; intros i n q0; simpl.
  - split; [intros _ j Hj; lia|reflexivity].
  - destruct (Z.eqb_spec ((i * i) mod q0) n) as [Hn|Hn].
    + split; [discriminate|]. intros H. exfalso. apply (H i); [lia|exact Hn].
    + rewrite IH. split.
      * intros H j Hj. destruct (Z.eq_dec j i) as [->|Hne]; [exact Hn|apply H; lia].
      * intros H j Hj. apply H; lia.
Qed.

(** What a successful [at] returns. *)
Lemma at_ok ec x0 p1 p2 :
  at' ec x0 = Ok (p1, p2) ->
  x0 < q ec /\ exists u, p1 = mkCoord x0 u /\ p2 = mkCoord x0 (q ec - u) /\
    1 <= u < q ec /\ (u * u) mod q ec = (x0 ^ 3 + a ec * x0 + b ec) mod q ec.
Proof.
  unfold at', sqrt. destruct (Z.ltb_spec x0 (q ec)) as [Hx|Hx]; cbn [assert bind];
    [|discriminate].
  destruct (_ <? q ec); cbn [assert bind]; [|discriminate].
  destruct (sqrt_scan _ 1 _ (q ec)) as [[u v]|] eqn:E; [|discriminate].
  cbn. intros H; injection H as <- <-.
  apply sqrt_scan_ok in E as (Hr & Hu & Hv & _). subst v.
  assert (Hlt : u < q ec).
  { destruct (Z.leb_spec 0 (q ec - 1)); [rewrite Z2Nat.id in Hr by lia; lia|].
    replace (Z.to_nat (q ec - 1)) with 0%nat in Hr by lia. cbn in Hr. lia. }
  split; [exact Hx|]. exists u. repeat split; try lia; auto.
Qed.

Lemma is_valid_root ec x0 u :
  (u * u) mod q ec = (x0 ^ 3 + a ec * x0 + b ec) mod q ec ->
  is_valid ec (mkCoord x0 u) = true.
Proof.
  intros H. unfold is_valid. destruct (Coord_eqb _ _); [reflexivity|].
  cbn [x y]. apply Z.eqb_eq. rewrite Z.pow_2_r. exact H.
Qed.

Lemma neg_zero ec : neg ec zero = zero.
Proof. unfold neg, zero; cbn [x y]. change (- 0) with 0. rewrite Zmod_0_l. reflexivity. Qed.

Lemma add_zero_l ec p : add ec zero p = p.
Proof. reflexivity. Qed.


Lemma mul_loop_zero ec n : mul_loop ec zero zero n = zero.
Proof.
  induction n as [n IH|n IH|]; cbn [mul_loop]; rewrite ?add_zero_l; auto.
Qed.

Lemma order_le_q ec g o : 0 <= q ec -> order ec g = Ok o -> 1 <= o <= q ec.
Proof.
  intros Hq. unfold order. destruct (is_valid ec g && negb (Coord_eqb g zero));
    cbn [assert bind]; [|discriminate].
  intros H. apply order_scan_ok in H as (Hr & _). rewrite Z2Nat.id in Hr by lia. lia.
Qed.


Lemma get_eg_g_scan_spec ec (Hq : 0 <= q ec) k : forall i g,
  get_eg_g_scan ec k i = Some g <->
  exists j g', i <= j < i + Z.of_nat k /\ at' ec j = Ok (g, g') /\
    is_ok (order ec g) = true /\ (forall j', i <= j' < j -> gen_ok ec j' = false).
Proof.
  induction k as [|k IH]; intros i g; cbn [get_eg_g_scan].
  - split; [discriminate|intros (j & g' & Hj & _); lia].
  - destruct (at' ec i) as [[g0 g0']|e] eqn:E.
    + destruct (order ec g0) as [o|e] eqn:Eo.
      * rewrite (proj2 (Z.leb_le o (q ec)) (proj2 (order_le_q ec g0 o Hq Eo))).
        split.
        -- intros H; injection H as <-. exists i, g0'. repeat split; try lia.
           ++ exact E.
           ++ rewrite Eo; reflexivity.
        -- intros (j & g' & Hj & Hat & Ho & Hm). destruct (Z.eq_dec j i) as [->|Hne].
           ++ rewrite E in Hat. injection Hat as -> _. reflexivity.
           ++ specialize (Hm i ltac:(lia)). unfold gen_ok in Hm. rewrite E, Eo in Hm.
              discriminate.
      * rewrite IH. split.
        -- intros (j & g' & Hj & Hat & Ho & Hm). exists j, g'.
           repeat split; try lia; auto.
           intros j' Hj'. destruct (Z.eq_dec j' i) as [->|Hne].
           ++ unfold gen_ok. rewrite E, Eo. reflexivity.
           ++ apply Hm; lia.
        -- intros (j & g' & Hj & Hat & Ho & Hm).
           assert (j <> i).
           { intros ->. rewrite E in Hat. injection Hat as -> _. rewrite Eo in Ho. discriminate. }
           exists j, g'. repeat split; try lia; auto. intros j' Hj'; apply Hm; lia.
    + rewrite IH. split.
      * intros (j & g' & Hj & Hat & Ho & Hm). exists j, g'.
        repeat split; try lia; auto.
        intros j' Hj'. destruct (Z.eq_dec j' i) as [->|Hne].
        -- unfold gen_ok. rewrite E. reflexivity.
        -- apply Hm; lia.
      * intros (j & g' & Hj & Hat & Ho & Hm).
        assert (j <> i) by (intros ->; congruence).
        exists j, g'. repeat split; try lia; auto. intros j' Hj'; apply Hm; lia.
Qed.

Lemma get_eg_g_scan_none ec (Hq : 0 <= q ec) k : forall i,
  get_eg_g_scan ec k i = None <->
  (forall j, i <= j < i + Z.of_nat k -> gen_ok ec j = false).
Proof.
  induction k as [|k IH]; intros i; cbn [get_eg_g_scan].
  - split; [intros _ j Hj; lia|reflexivity].
  - unfold gen_ok at 1.
    destruct (at' ec i) as [[g0 g0']|e] eqn:E.
    + destruct (order ec g0) as [o|e] eqn:Eo.
      * rewrite (proj2 (Z.leb_le o (q ec)) (proj2 (order_le_q ec g0 o Hq Eo))).
        split; [discriminate|]. intros H. specialize (H i ltac:(lia)).
        unfold gen_ok in H. rewrite E, Eo in H. discriminate.
      * rewrite IH. split.
        -- intros H j Hj. destruct (Z.eq_dec j i) as [->|Hne].
           ++ unfold gen_ok. rewrite E, Eo. reflexivity.
           ++ apply H; lia.
        -- intros H j Hj. apply H; lia.
    + rewrite IH. split.
      * intros H j Hj. destruct (Z.eq_dec j i) as [->|Hne].
        -- unfold gen_ok. rewrite E. reflexivity.
        -- apply H; lia.
      * intros H j Hj. apply H; lia.
Qed.

(** Python's [round(x / 20)] on [x = 20 m + j]. *)
Lemma round_div_split m j : 0 <= j < max_bits ->
  round_div (m * max_bits + j) max_bits =
    if j <? 10 then m else if 10 <? j then m + 1 else if Z.even m then m else m + 1.
Proof.
  intros Hj. unfold round_div, max_bits in *.
  rewrite Z.div_add_l, Z.div_small, Z.add_0_r by lia.
  rewrite Z.add_comm, Z.mod_add, Z.mod_small by lia.
  destruct (Z.ltb_spec j 10); destruct (Z.ltb_spec (2 * j) 20); try lia;
    destruct (Z.ltb_spec 10 j); destruct (Z.ltb_spec 20 (2 * j)); try lia; reflexivity.
Qed.

Lemma map_to_chars_ok xs cs :
  map_to_chars xs = Ok cs <->
  Forall2 (fun x0 c => c = round_div x0 max_bits /\ 0 <= c < 1114112) xs cs.
Proof.
  unfold map_to_chars. rewrite mapM_ok. split; intros H; (eapply Forall2_impl; [|exact H]);
    intros x0 c; unfold chr.
  - destruct ((0 <=? _) && (_ <? 1114112)) eqn:E; [|discriminate].
    intros Hc; injection Hc as <-. apply andb_true_iff in E as [E1 E2].
    apply Z.leb_le in E1; apply Z.ltb_lt in E2. auto.
  - intros [-> Hc].
    rewrite (proj2 (Z.leb_le 0 _) (proj1 Hc)), (proj2 (Z.ltb_lt _ 1114112) (proj2 Hc)).
    reflexivity.
Qed.

(** ** Text helpers *)

(** The characters [isnumeric] accepts are none of white space, signs,
    underscore, parentheses or comma. *)
Lemma numeric_char_facts (c : ascii) : py_isnumeric_char c = true ->
  py_isspace_char c = false /\ Ascii.eqb c "-"%char = false /\
  Ascii.eqb c "+"%char = false /\ Ascii.eqb c "_"%char = false /\
  Ascii.eqb c "("%char = false /\ Ascii.eqb c ")"%char = false /\
  Ascii.eqb c ","%char = false.
Proof.
  destruct c as [[] [] [] [] [] [] [] []]; vm_compute;
    first [discriminate | intros _; repeat split].
Qed.

Lemma decimal_numeric (c : ascii) : py_isdecimal_char c = true -> py_isnumeric_char c = true.
Proof. unfold py_isnumeric_char, py_isdecimal_char. intros ->. reflexivity. Qed.

Lemma lstrip_id s : (forall c, In c s -> py_isspace_char c = false) -> lstrip s = s.
Proof.
  destruct s as [|c t]; intros H; [reflexivity|]. cbn [lstrip].
  rewrite (H c (or_introl eq_refl)). reflexivity.
Qed.

Lemma py_strip_id s : (forall c, In c s -> py_isspace_char c = false) -> py_strip s = s.
Proof.
  intros H. unfold py_strip. rewrite (lstrip_id s H), lstrip_id, rev_involutive; [reflexivity|].
  intros c Hc. apply H, in_rev, Hc.
Qed.


Lemma int_digits_decimal s : forall acc b,
  forallb py_isdecimal_char s = true -> s <> [] ->
  int_digits acc b s = Some (fold_left digits_step s acc).
Proof.
  induction s as [|c t IH]; intros acc b Hd Hn; [contradiction|].
  cbn [forallb] in Hd. apply andb_true_iff in Hd as [Hc Ht].
  cbn [int_digits fold_left]. rewrite Hc.
  destruct t as [|c' t']; [reflexivity|]. apply IH; [exact Ht|discriminate].
Qed.



(** The decimal digits written by [str_digits]. *)
Lemma digit_char_facts k : 0 <= k < 10 ->
  py_isdecimal_char (ascii_of_nat (Z.to_nat (k + 48))) = true /\
  digit_value (ascii_of_nat (Z.to_nat (k + 48))) = k.
Proof.
  intros Hk. unfold py_isdecimal_char, in_range, digit_value.
  rewrite nat_ascii_embedding by lia. split.
  - apply andb_true_iff. split; apply Nat.leb_le; lia.
  - lia.
Qed.

Lemma str_digits_S f n acc :
  str_digits (S f) n acc =
  if n <? 10 then ascii_of_nat (Z.to_nat (n mod 10 + 48)) :: acc
  else str_digits f (n / 10) (ascii_of_nat (Z.to_nat (n mod 10 + 48)) :: acc).
Proof. reflexivity. Qed.

Lemma str_digits_spec f : forall n acc,
  0 <= n < 10 ^ Z.of_nat (S f) ->
  exists l, str_digits (S f) n acc = l ++ acc /\ l <> [] /\
    forallb py_isdecimal_char l = true /\
    forall a0, fold_left digits_step l a0 = a0 * 10 ^ Z.of_nat (List.length l) + n.
Proof.
  induction f as [|f IH]; intros n acc Hn; rewrite str_digits_S;
    pose proof (Z.mod_pos_bound n 10 ltac:(lia)) as Hm;
    destruct (digit_char_facts (n mod 10) Hm) as [Hd Hv];
    set (d := ascii_of_nat (Z.to_nat (n mod 10 + 48))) in *;
    destruct (Z.ltb_spec n 10) as [Hlt|Hge].
  1, 3:
    exists [d]; split; [reflexivity|]; split; [discriminate|];
    split; [cbn; rewrite Hd; reflexivity|];
    intros a0; cbn; unfold digits_step; rewrite Hv, Z.mod_small by lia; ring.
  - cbn in Hn. lia.
  - destruct (IH (n / 10) (d :: acc)) as (l & Hl & Hne & Hld & Hf).
    { split; [apply Z.div_pos; lia|].
      apply Z.div_lt_upper_bound; [lia|].
      rewrite Nat2Z.inj_succ, Z.pow_succ_r in Hn by lia. lia. }
    exists (l ++ [d]). rewrite Hl, <- app_assoc. split; [reflexivity|].
    split; [destruct l; [contradiction|discriminate]|].
    split; [rewrite forallb_app, Hld; cbn; rewrite Hd; reflexivity|].
    intros a0. rewrite fold_left_app, Hf, length_app. cbn [fold_left List.length].
    unfold digits_step. rewrite Hv.
    rewrite Nat2Z.inj_add, Z.pow_add_r by lia. cbn.
    pose proof (Z.div_mod n 10 ltac:(lia)). nia.
Qed.

Lemma str_digits_fuel n : 0 <= n -> n < 10 ^ Z.of_nat (S (Z.to_nat (Z.log2 n))).
Proof.
  intros Hn. rewrite Nat2Z.inj_succ, Z2Nat.id by apply Z.log2_nonneg.
  apply Z.lt_le_trans with (2 ^ Z.succ (Z.log2 n)).
  - destruct (Z.eq_dec n 0) as [->|H0]; [cbn; lia|].
    apply Z.log2_spec; lia.
  - apply Z.pow_le_mono_l. split; [lia|lia].
Qed.

Lemma py_str_int_spec n :
  exists l, l <> [] /\ forallb py_isdecimal_char l = true /\
    (py_str_int n = if n <? 0 then "-"%char :: l else l) /\
    fold_left digits_step l 0 = Z.abs n.
Proof.
  unfold py_str_int. destruct (Z.ltb_spec n 0) as [Hn|Hn].
  - destruct (str_digits_spec (Z.to_nat (Z.log2 (- n))) (- n) [])
      as (l & Hl & Hne & Hd & Hf); [split; [lia|apply str_digits_fuel; lia]|].
    exists l. rewrite Hl, app_nil_r, Hf. repeat split; auto. lia.
  - destruct (str_digits_spec (Z.to_nat (Z.log2 n)) n [])
      as (l & Hl & Hne & Hd & Hf); [split; [lia|apply str_digits_fuel; lia]|].
    exists l. rewrite Hl, app_nil_r, Hf. repeat split; auto. lia.
Qed.

Lemma py_int_str n : py_int (py_str_int n) = Ok n.
Proof.
  destruct (py_str_int_spec n) as (l & Hne & Hd & -> & Hf).
  assert (Hs : forall c, In c l -> py_isspace_char c = false).
  { intros c Hc. apply (numeric_char_facts c), decimal_numeric.
    apply forallb_forall with (x := c) in Hd; assumption. }
  destruct l as [|c t]; [contradiction|].
  pose proof Hd as Hd'. cbn [forallb] in Hd'. apply andb_true_iff in Hd' as [Hc _].
  destruct (numeric_char_facts c (decimal_numeric c Hc)) as (_ & Hm & Hp & _).
  unfold py_int. destruct (Z.ltb_spec n 0) as [Hn|Hn].
  - rewrite py_strip_id.
    + change (Ascii.eqb "-"%char "-"%char) with true.
      rewrite int_digits_decimal by (auto || discriminate). cbn [option_map]. rewrite Hf. f_equal. lia.
    + intros c' [<-|Hc']; [reflexivity|apply Hs, Hc'].
  - rewrite (py_strip_id _ Hs), Hm, Hp, int_digits_decimal by (auto || discriminate).
    rewrite Hf. f_equal. lia.
Qed.

(** [s.split()] on words separated by white space. *)
Lemma py_split_aux_word w : forall rest cur,
  (forall c, In c w -> py_isspace_char c = false) ->
  py_split_aux (w ++ rest) cur = py_split_aux rest (rev w ++ cur).
Proof.
  induction w as [|c t IH]; intros rest cur H; [reflexivity|].
  cbn [app py_split_aux]. rewrite (H c (or_introl eq_refl)).
  rewrite IH by (intros c' Hc'; apply H; right; exact Hc').
  cbn [rev]. rewrite <- app_assoc. reflexivity.
Qed.

Lemma py_split_word w sp rest :
  w <> [] -> (forall c, In c w -> py_isspace_char c = false) -> py_isspace_char sp = true ->
  py_split_aux (w ++ sp :: rest) [] = w :: py_split_aux rest [].
Proof.
  intros Hne Hw Hsp. rewrite py_split_aux_word by exact Hw.
  rewrite app_nil_r. cbn [py_split_aux]. rewrite Hsp.
  destruct (rev w) eqn:E.
  - apply (f_equal (@rev ascii)) in E. rewrite rev_involutive in E. contradiction.
  - rewrite <- E, rev_involutive. reflexivity.
Qed.

Lemma py_str_int_chars n c : In c (py_str_int n) ->
  py_isspace_char c = false /\ Ascii.eqb c "("%char = false /\
  Ascii.eqb c ")"%char = false /\ Ascii.eqb c ","%char = false.
Proof.
  destruct (py_str_int_spec n) as (l & _ & Hd & -> & _).
  assert (Hl : In c l -> py_isspace_char c = false /\ Ascii.eqb c "("%char = false /\
                         Ascii.eqb c ")"%char = false /\ Ascii.eqb c ","%char = false).
  { intros Hc. apply forallb_forall with (x := c) in Hd; [|exact Hc].
    destruct (numeric_char_facts c (decimal_numeric c Hd)) as (H1 & _ & _ & _ & H2 & H3 & H4).
    auto. }
  destruct (n <? 0); [intros [<-|Hc]; [repeat split; reflexivity|auto]|exact Hl].
Qed.

Lemma py_str_int_nonempty n : py_str_int n <> [].
Proof.
  destruct (py_str_int_spec n) as (l & Hne & _ & -> & _).
  destruct (n <? 0); [discriminate|exact Hne].
Qed.

Lemma filter_str_int n : filter_cipher_text (py_str_int n) = py_str_int n.
Proof.
  unfold filter_cipher_text. apply forallb_filter_id, forallb_forall.
  intros c Hc. destruct (py_str_int_chars n c Hc) as (_ & H1 & H2 & H3).
  rewrite H1, H2, H3. reflexivity.
Qed.

Lemma filter_show_cipher c :
  filter_cipher_text (show_cipher c) =
  py_str_int (x (fst c)) ++ " "%char :: py_str_int (y (fst c)) ++ " "%char ::
  py_str_int (x (snd c)) ++ " "%char :: py_str_int (y (snd c)) ++ ["010"%char].
Proof.
  destruct c as [c1 c2]. unfold show_cipher, filter_cipher_text.
  rewrite !filter_app. fold filter_cipher_text. rewrite !filter_str_int.
  cbn [filter fst snd]. vm_compute (negb _). cbn [app].
  rewrite <- ?app_assoc. reflexivity.
Qed.

Lemma split_show_ciphers cs :
  py_split (filter_cipher_text (list_ascii_of_string (show_ciphers cs))) =
  List.concat (map (fun c => [py_str_int (x (fst c)); py_str_int (y (fst c));
                              py_str_int (x (snd c)); py_str_int (y (snd c))]) cs).
Proof.
  unfold show_ciphers, py_split. rewrite list_ascii_of_string_of_list_ascii.
  induction cs as [|c cs IH]; [reflexivity|].
  cbn [map List.concat]. unfold filter_cipher_text. rewrite filter_app.
  fold filter_cipher_text. rewrite filter_show_cipher, <- IH.
  assert (Hw : forall n c', In c' (py_str_int n) -> py_isspace_char c' = false)
    by (intros n c' H; apply (py_str_int_chars n c' H)).
  repeat (rewrite <- app_assoc || rewrite <- app_comm_cons). cbn [app].
  rewrite !py_split_word by (apply py_str_int_nonempty || apply Hw || reflexivity).
  reflexivity.
Qed.

(** ** The validators and the cipher-text reader *)


Lemma parse_length toks : forall v,
  parse_cipher_list toks = POk v ->
  List.length toks = (4 * List.length v)%nat /\ Forall (fun t => is_ok (py_int t) = true) toks.
Proof.
  revert toks. fix IH 1. intros toks v H.
  destruct toks as [|t0 [|t1 [|t2 [|t3 r]]]]; cbn [parse_cipher_list] in H.
  - inversion H. split; [reflexivity|constructor].
  - destruct (py_int t0); discriminate.
  - destruct (py_int t0), (py_int t1); discriminate.
  - destruct (py_int t0), (py_int t1), (py_int t2); discriminate.
  - destruct (py_int t0) eqn:E0, (py_int t1) eqn:E1, (py_int t2) eqn:E2, (py_int t3) eqn:E3;
      try discriminate.
    cbn [lift pbind] in H. destruct (parse_cipher_list r) eqn:E; try discriminate.
    inversion H; subst. apply IH in E as [El Ef]. cbn [List.length]. split; [lia|].
    repeat apply Forall_cons; try exact Ef; [rewrite E0|rewrite E1|rewrite E2|rewrite E3]; reflexivity.
Qed.

Lemma parse_index_error toks :
  Forall (fun t => is_ok (py_int t) = true) toks -> (List.length toks mod 4 <> 0)%nat ->
  parse_cipher_list toks = IndexError.
Proof.
  revert toks. fix IH 1. intros toks Hf Hl.
  destruct toks as [|t0 [|t1 [|t2 [|t3 r]]]]; [contradiction Hl; reflexivity| | | |];
    repeat rewrite Forall_cons_iff in Hf; cbn [parse_cipher_list].
  - destruct Hf as [H0 _]. destruct (py_int t0); [reflexivity|discriminate].
  - destruct Hf as (H0 & H1 & _).
    destruct (py_int t0), (py_int t1); try discriminate; reflexivity.
  - destruct Hf as (H0 & H1 & H2 & _).
    destruct (py_int t0), (py_int t1), (py_int t2); try discriminate; reflexivity.
  - destruct Hf as (H0 & H1 & H2 & H3 & Hr).
    destruct (py_int t0), (py_int t1), (py_int t2), (py_int t3); try discriminate.
    cbn [lift pbind]. rewrite (IH r Hr); [reflexivity|].
    cbn [List.length] in Hl.
    replace (S (S (S (S (List.length r))))) with (List.length r + 1 * 4)%nat in Hl by lia.
    rewrite Nat.Div0.mod_add in Hl. exact Hl.
Qed.

Lemma parse_show_ciphers cs :
  parse_cipher_list (py_split (filter_cipher_text (list_ascii_of_string (show_ciphers cs)))) = POk cs.
Proof.
  rewrite split_show_ciphers. induction cs as [|[c1 c2] cs IH]; [reflexivity|].
  cbn [map List.concat app fst snd parse_cipher_list].
  rewrite !py_int_str. cbn [lift pbind]. rewrite IH. destruct c1, c2. reflexivity.
Qed.


(** ** The group law over [Z/qZ] *)

Section GroupLaw.
Variable m : Z.
Hypothesis Hm : Z.prime m.
Hypothesis Hm2 : m <> 2%Z.
Add Field Fm : (Zmod.field_theory m Hm).
Local Open Scope Zmod_scope.
Variables a b : Zmod m.

Lemma mul_nz (u v : Zmod m) : u <> 0 -> v <> 0 -> u * v <> 0.
Proof. intros Hu Hv H. apply Zmod.mul_0_iff_prime in H; [tauto|exact Hm]. Qed.

Lemma sub0_eq (u v : Zmod m) : u - v = 0 -> u = v.
Proof. intros H. transitivity (u - v + v); [ring|]. rewrite H. ring. Qed.

Lemma sub_nz (u v : Zmod m) : u <> v -> u - v <> 0.
Proof. intros H H0. apply H, sub0_eq, H0. Qed.

Lemma neq_of (u v p d : Zmod m) : d <> 0 -> (u - v) * d = p -> u <> v -> p <> 0.
Proof.
  intros Hd Hp Huv Hp0. apply Huv, sub0_eq. subst p.
  apply Zmod.mul_0_iff_prime in Hp0; [|exact Hm]. destruct Hp0 as [H|H]; [exact H|contradiction].
Qed.

Lemma c2_nz : c2 <> 0 :> Zmod m.
Proof.
  unfold c2. rewrite <- Zmod.of_Z_1, <- Zmod.of_Z_add. apply Zmod.of_Z_nz.
  pose proof (Z.prime_ge_2 _ Hm). rewrite Z.mod_small; lia.
Qed.

Lemma eqb_false (u v : Zmod m) : u <> v -> Zmod.eqb u v = false.
Proof. intros H. destruct (Zmod.eqb_spec u v); [contradiction|reflexivity]. Qed.

Lemma opp_nz (y : Zmod m) : y <> 0 -> - y <> 0.
Proof. intros H H0. apply H. transitivity (- - y); [ring|]. rewrite H0. ring. Qed.

Lemma self_opp (y : Zmod m) : y = - y -> y = 0.
Proof.
  intros H. assert (H2 : c2 * y = y - - y) by (unfold c2; ring).
  rewrite <- H in H2. replace (y - y) with (0 : Zmod m) in H2 by ring.
  apply Zmod.mul_0_iff_prime in H2; [|exact Hm]. destruct H2 as [H2|H2]; [|exact H2].
  destruct (c2_nz H2).
Qed.

Lemma y_cases (x y1 y2 : Zmod m) :
  onc a b (Aff x y1) -> onc a b (Aff x y2) -> y2 = y1 \/ y2 = - y1.
Proof.
  cbn [onc]. intros E1 E2.
  assert (H : (y2 - y1) * (y2 + y1) = 0) by (ring [E1 E2]).
  apply Zmod.mul_0_iff_prime in H; [|exact Hm]. destruct H as [H|H].
  - left. apply sub0_eq, H.
  - right. apply sub0_eq. rewrite <- H. ring.
Qed.

Lemma Aff_inj (x y x' y' : Zmod m) : Aff x y = Aff x' y' -> x = x' /\ y = y'.
Proof. intros H. injection H. auto. Qed.

Lemma negF_negF (P : pt m) : negF (negF P) = P.
Proof. destruct P; cbn; [reflexivity|]. f_equal. ring. Qed.

Lemma onc_negF (P : pt m) : onc a b P -> onc a b (negF P).
Proof. destruct P; cbn; [trivial|]. intros E. rewrite <- E. ring. Qed.

Lemma addF_chord (x1 y1 x2 y2 : Zmod m) : x1 <> x2 ->
  addF a (Aff x1 y1) (Aff x2 y2) =
  Aff (tx (cl x1 y1 x2 y2) x1 x2) (ty (cl x1 y1 x2 y2) x1 y1 x2).
Proof. intros H. unfold addF. rewrite (eqb_false _ _ H). reflexivity. Qed.

Lemma addF_dbl (x1 y1 : Zmod m) : y1 <> 0 ->
  addF a (Aff x1 y1) (Aff x1 y1) =
  Aff (tx (dl a x1 y1) x1 x1) (ty (dl a x1 y1) x1 y1 x1).
Proof. intros H. unfold addF. rewrite !Zmod.eqb_refl, (eqb_false _ _ H). reflexivity. Qed.

Lemma addF_negF (P : pt m) : addF a P (negF P) = Inf.
Proof.
  destruct P as [|x y]; [reflexivity|]. cbn [negF addF]. rewrite Zmod.eqb_refl.
  destruct (Zmod.eqb_spec y (- y)) as [H|H]; [|reflexivity].
  rewrite (self_opp _ H), Zmod.eqb_refl. reflexivity.
Qed.

Lemma addF_Inf_r (P : pt m) : addF a P Inf = P.
Proof. destruct P; reflexivity. Qed.

(** Case analysis of the addition of two affine points of the curve. *)
Lemma addF_cases (x1 y1 x2 y2 : Zmod m) :
  onc a b (Aff x1 y1) -> onc a b (Aff x2 y2) ->
  (Aff x2 y2 = negF (Aff x1 y1) /\ addF a (Aff x1 y1) (Aff x2 y2) = Inf) \/
  (x1 <> x2 /\ addF a (Aff x1 y1) (Aff x2 y2) =
     Aff (tx (cl x1 y1 x2 y2) x1 x2) (ty (cl x1 y1 x2 y2) x1 y1 x2)) \/
  (x2 = x1 /\ y2 = y1 /\ y1 <> 0 /\ addF a (Aff x1 y1) (Aff x2 y2) =
     Aff (tx (dl a x1 y1) x1 x1) (ty (dl a x1 y1) x1 y1 x1)).
Proof.
  intros E1 E2. destruct (Zmod.eqb_spec x1 x2) as [<-|H12].
  - destruct (y_cases _ _ _ E1 E2) as [->| ->].
    + destruct (Zmod.eqb_spec y1 0) as [->|Hy].
      * left. split; [cbn; f_equal; ring|]. cbn. rewrite !Zmod.eqb_refl. reflexivity.
      * right; right. repeat split; auto. apply addF_dbl, Hy.
    + left. split; [reflexivity|apply (addF_negF (Aff x1 y1))].
  - right; left. split; [exact H12|apply addF_chord, H12].
Qed.


Ltac nzt :=
  repeat split;
  repeat match goal with
  | |- ?u * ?v <> 0 => apply mul_nz
  | |- - ?u <> 0 => apply opp_nz
  end;
  first [ assumption | exact c2_nz
        | apply sub_nz; assumption | apply sub_nz, not_eq_sym; assumption ].

Lemma cl_eq (x1 y1 x2 y2 : Zmod m) : x1 <> x2 -> cl x1 y1 x2 y2 * (x2 - x1) = y2 - y1.
Proof. intros H. pose proof (sub_nz _ _ (not_eq_sym H)). unfold cl. field. assumption. Qed.

Lemma dl_eq (x1 y1 : Zmod m) : y1 <> 0 -> dl a x1 y1 * (c2 * y1) = c3 * x1 * x1 + a.
Proof. intros H. unfold dl. field. nzt. Qed.

Lemma addF_onc (P Q : pt m) : onc a b P -> onc a b Q -> onc a b (addF a P Q).
Proof.
  destruct P as [|x1 y1]; [tauto|]. destruct Q as [|x2 y2]; [tauto|].
  intros E1 E2. destruct (addF_cases _ _ _ _ E1 E2) as [[_ ->]|[[H12 ->]|[-> [-> [Hy ->]]]]].
  - exact I.
  - cbn [onc]. unfold ty, tx, cl. cbn [onc] in E1, E2. pose proof (sub_nz _ _ (not_eq_sym H12)).
    field [E1 E2]. exact H.
  - cbn [onc]. cbn [onc] in E1. unfold ty, tx.
    pose proof (dl_eq x1 y1 Hy) as Hl. revert Hl. generalize (dl a x1 y1) as l. intros l Hl.
    assert (Hb : b = y1 * y1 - x1 * x1 * x1 - a * x1) by (rewrite E1; ring).
    assert (Ha : a = l * (c2 * y1) - c3 * x1 * x1) by (rewrite Hl; ring).
    rewrite Hb, Ha. unfold c2, c3. ring.
Qed.

Lemma addF_comm (P Q : pt m) : onc a b P -> onc a b Q -> addF a P Q = addF a Q P.
Proof.
  destruct P as [|x1 y1]; [intros; rewrite addF_Inf_r; reflexivity|].
  destruct Q as [|x2 y2]; [reflexivity|].
  intros E1 E2. destruct (addF_cases _ _ _ _ E1 E2) as [[HQ ->]|[[H12 ->]|[-> [-> [Hy ->]]]]].
  - rewrite HQ. pose proof (addF_negF (negF (Aff x1 y1))) as H.
    rewrite negF_negF in H. symmetry; exact H.
  - rewrite addF_chord by congruence.
    pose proof (sub_nz _ _ H12). pose proof (sub_nz _ _ (not_eq_sym H12)).
    assert (Hl : cl x2 y2 x1 y1 = cl x1 y1 x2 y2) by (unfold cl; field; tauto).
    rewrite Hl. f_equal; unfold ty, tx; [ring|]. unfold cl. field. assumption.
  - reflexivity.
Qed.

Lemma negF_addF (P Q : pt m) : onc a b P -> onc a b Q ->
  negF (addF a P Q) = addF a (negF P) (negF Q).
Proof.
  destruct P as [|x1 y1]; [reflexivity|]. destruct Q as [|x2 y2]; [reflexivity|].
  intros E1 E2. destruct (addF_cases _ _ _ _ E1 E2) as [[HQ ->]|[[H12 ->]|[-> [-> [Hy ->]]]]].
  - rewrite HQ, addF_negF. reflexivity.
  - cbn [negF]. rewrite addF_chord by exact H12. pose proof (sub_nz _ _ (not_eq_sym H12)).
    f_equal; unfold ty, tx, cl; field; assumption.
  - cbn [negF]. rewrite addF_dbl by (apply opp_nz; exact Hy).
    f_equal; unfold ty, tx, dl; field; nzt.
Qed.

Lemma addF_Inf_inv (P Q : pt m) : onc a b P -> onc a b Q -> addF a P Q = Inf -> Q = negF P.
Proof.
  destruct P as [|x1 y1]; [intros _ _ H; exact H|].
  destruct Q as [|x2 y2]; [discriminate|].
  intros E1 E2. destruct (addF_cases _ _ _ _ E1 E2) as [[HQ _]|[[_ ->]|[_ [_ [_ ->]]]]];
    [intros _; exact HQ|discriminate|discriminate].
Qed.

Hypothesis Hdisc : disc a b <> 0.

Lemma nonsing (x : Zmod m) : onc a b (Aff x 0) -> c3 * x * x + a <> 0.
Proof.
  cbn [onc]. intros E Ha. apply Hdisc.
  assert (Ha' : a = - (c3 * x * x)) by (apply sub0_eq; rewrite <- Ha; ring).
  assert (Hb : b = - (x * x * x) - a * x) by (apply sub0_eq; transitivity (x * x * x + a * x + b); [ring|]; rewrite <- E; ring).
  unfold disc. rewrite Hb, Ha'. unfold c2, c3. ring.
Qed.

Lemma tangent (x1 y1 x2 y2 : Zmod m) : onc a b (Aff x1 y1) -> onc a b (Aff x2 y2) ->
  x1 <> x2 -> tx (cl x1 y1 x2 y2) x1 x2 = x2 ->
  c2 * y2 * cl x1 y1 x2 y2 = c3 * x2 * x2 + a.
Proof.
  cbn [onc]. intros E1 E2 H12 HX. pose proof (cl_eq _ y1 _ y2 H12) as Hl.
  pose proof (sub_nz _ _ (not_eq_sym H12)) as Hd.
  revert Hl HX. generalize (cl x1 y1 x2 y2) as l. intros l Hl HX. unfold tx in HX.
  assert (E : y1 * y1 - (x1 * x1 * x1 + a * x1 + b) - (y2 * y2 - (x2 * x2 * x2 + a * x2 + b)) = 0)
    by (rewrite E1, E2; ring).
  assert (Hy1 : y1 = y2 - l * (x2 - x1)) by (rewrite Hl; ring).
  assert (Hx1 : x1 = l * l - x2 - x2) by (apply sub0_eq; rewrite <- HX at 1; ring).
  clear E1 E2 Hl. subst y1. subst x1.
  assert (H : (x2 - (l * l - x2 - x2)) * (c2 * y2 * l - (c3 * x2 * x2 + a)) = 0).
  { match type of E with ?L = 0 => transitivity (- L); [unfold c2, c3; ring|rewrite E; ring] end. }
  apply Zmod.mul_0_iff_prime in H; [|exact Hm]. destruct H as [H|H]; [contradiction|].
  apply sub0_eq, H.
Qed.

Lemma chord_y (x1 y1 x2 y2 : Zmod m) : x1 <> x2 -> tx (cl x1 y1 x2 y2) x1 x2 = x2 ->
  ty (cl x1 y1 x2 y2) x1 y1 x2 = - y2.
Proof.
  intros H12 HX. pose proof (cl_eq _ y1 _ y2 H12) as Hl. unfold ty. rewrite HX.
  transitivity (- (cl x1 y1 x2 y2 * (x2 - x1)) - y1); [ring|]. rewrite Hl. ring.
Qed.

Lemma dbl_y (x1 y1 : Zmod m) : tx (dl a x1 y1) x1 x1 = x1 -> ty (dl a x1 y1) x1 y1 x1 = - y1.
Proof. intros HX. unfold ty. rewrite HX. ring. Qed.

Ltac nz_by H D :=
  lazymatch type of H with
  | ?u <> ?v =>
    first [ apply (neq_of u v _ D); [nzt | unfold cl, dl, ty, tx; field; nzt | exact H]
          | apply (neq_of v u _ D); [nzt | unfold cl, dl, ty, tx; field; nzt | exact (not_eq_sym H)] ]
  end.

Ltac sides H D := repeat match goal with |- _ /\ _ => split end; solve [nzt | nz_by H D].


Lemma addF_sub (P Q : pt m) : onc a b P -> onc a b Q -> addF a (addF a P Q) (negF Q) = P.
Proof.
  destruct P as [|x1 y1]; [intros _ _; apply addF_negF|].
  destruct Q as [|x2 y2]; [intros _ _; reflexivity|].
  intros E1 E2. pose proof (addF_onc _ _ E1 E2) as ER. pose proof (onc_negF _ E2) as E2n.
  cbn [negF] in E2n |- *.
  destruct (addF_cases _ _ _ _ E1 E2) as [[HQ HR]|[[H12 HR]|[-> [-> [Hy HR]]]]]; rewrite HR in *.
  - destruct (Aff_inj _ _ _ _ HQ) as [-> ->]. cbn [addF]. f_equal. ring.
  - destruct (addF_cases _ _ _ _ ER E2n) as [[HQ' HR']|[[H3 HR']|[HX [HY [Hy3 HR']]]]].
    + exfalso. cbn [negF] in HQ'. destruct (Aff_inj _ _ _ _ HQ') as [HX HY].
      pose proof (tangent _ _ _ _ E1 E2 H12 (eq_sym HX)) as Ht.
      rewrite (chord_y _ _ _ _ H12 (eq_sym HX)) in HY.
      assert (Hy2 : y2 = 0) by (apply self_opp; rewrite HY at 1; ring).
      subst y2. apply (nonsing x2 E2). rewrite <- Ht. ring.
    + rewrite HR'. cbn [onc] in E1, E2. f_equal; unfold ty, tx, cl; field [E1 E2];
        sides H3 ((x2 - x1) * (x2 - x1)).
    + rewrite HR'. pose proof (tangent _ _ _ _ E1 E2 H12 (eq_sym HX)) as Ht.
      pose proof (cl_eq _ y1 _ y2 H12) as Hl.
      rewrite <- HY in Hy3 |- *. rewrite <- HX.
      assert (Hy2 : y2 <> 0) by (intros ->; apply Hy3; ring).
      assert (Hd : dl a x2 (- y2) = - cl x1 y1 x2 y2) by (unfold dl; rewrite <- Ht; field; nzt).
      rewrite Hd. unfold tx in HX. revert Hl HX. generalize (cl x1 y1 x2 y2) as l. intros l Hl HX.
      f_equal; unfold ty, tx.
      * transitivity (l * l - x1 - x2 - x2 + x1); [ring|]. rewrite <- HX. ring.
      * transitivity (- (l * (x2 - x1)) + y2 + l * (l * l - x1 - x2 - x2)); [ring|].
        rewrite Hl, <- HX. ring.
  - destruct (addF_cases _ _ _ _ ER E2n) as [[HQ' HR']|[[H3 HR']|[HX [HY [Hy3 HR']]]]].
    + exfalso. cbn [negF] in HQ'. destruct (Aff_inj _ _ _ _ HQ') as [HX HY].
      rewrite (dbl_y _ _ (eq_sym HX)) in HY. apply Hy, self_opp.
      transitivity (- - y1); [ring|]. rewrite <- HY. reflexivity.
    + rewrite HR'. cbn [onc] in E1. f_equal; unfold ty, tx, dl, cl; field [E1]; sides H3 ((c2 * y1) * (c2 * y1)).
    + rewrite <- HY, <- HX. change (Aff x1 (- y1)) with (negF (Aff x1 y1)).
      rewrite <- (negF_addF _ _ E1 E1), HR, <- HY, <- HX.
      cbn [negF]. f_equal. ring.
Qed.

Ltac nz2 H1 D1 H2 D2 :=
  repeat match goal with |- _ /\ _ => split end; solve [nzt | nz_by H1 D1 | nz_by H2 D2].
End GroupLaw.

(** ** [EC.add] and [EC.neg] against the group law *)

Section Bridge.
Variable ec : EC.
Hypothesis Hwf : wf_EC ec.
Hypothesis Hp : Z.prime (q ec).
Add Field Fq : (Zmod.field_theory (q ec) Hp).

Lemma q_gt_2 : 2 < q ec.
Proof. destruct Hwf as (_ & _ & H). exact H. Qed.

Lemma ofZ_eqb u v : 0 <= u < q ec -> 0 <= v < q ec ->
  Zmod.eqb (Zmod.of_Z (q ec) u) (Zmod.of_Z (q ec) v) = (u =? v).
Proof.
  intros Hu Hv. unfold Zmod.eqb. rewrite !Zmod.unsigned_of_Z_small by assumption. reflexivity.
Qed.

Lemma ofZ_eqb0 u : 0 <= u < q ec ->
  Zmod.eqb (Zmod.of_Z (q ec) u) Zmod.zero = (u =? 0).
Proof.
  intros Hu. change (@Zmod.zero (q ec)) with (Zmod.of_Z (q ec) 0).
  apply ofZ_eqb; [exact Hu|pose proof q_gt_2; lia].
Qed.

Lemma ofZ_2 : Zmod.of_Z (q ec) 2 = c2.
Proof.
  unfold c2. rewrite <- Zmod.of_Z_1, <- Zmod.of_Z_add. reflexivity.
Qed.

Lemma ofZ_3 : Zmod.of_Z (q ec) 3 = c3.
Proof.
  unfold c3. rewrite <- Zmod.of_Z_1, <- !Zmod.of_Z_add. reflexivity.
Qed.

Lemma ofZ_inv_z d : d mod q ec <> 0 ->
  Zmod.of_Z (q ec) (inv_z d (q ec)) = Zmod.inv (Zmod.of_Z (q ec) d).
Proof.
  intros Hd. pose proof q_gt_2 as Hq.
  assert (HD : Zmod.of_Z (q ec) d <> Zmod.zero) by (apply Zmod.of_Z_nz, Hd).
  assert (Hg : Z.gcd d (q ec) = 1).
  { rewrite Z.gcd_comm. apply Z.coprime_prime_l; [exact Hp|].
    intros Hdiv. apply Hd. apply Z.mod_divide; [lia|exact Hdiv]. }
  destruct (inv_z_mul d (q ec) ltac:(lia)) as [Hm _]. rewrite Hg in Hm.
  assert (HI : Zmod.mul (Zmod.of_Z (q ec) d) (Zmod.of_Z (q ec) (inv_z d (q ec))) = Zmod.one).
  { rewrite <- Zmod.of_Z_mul, <- Zmod.of_Z_1. apply Zmod.of_Z_inj. rewrite Hm. reflexivity. }
  revert HI. generalize (Zmod.of_Z (q ec) (inv_z d (q ec))) as I. intros I HI.
  transitivity (Zmod.mul (Zmod.mul (Zmod.of_Z (q ec) d) I) (Zmod.inv (Zmod.of_Z (q ec) d))).
  - field. exact HD.
  - rewrite HI. ring.
Qed.

Lemma ofZ_cubic u :
  Zmod.of_Z (q ec) (u ^ 3 + a ec * u + b ec) =
  Zmod.add (Zmod.add (Zmod.mul (Zmod.mul (Zmod.of_Z (q ec) u) (Zmod.of_Z (q ec) u)) (Zmod.of_Z (q ec) u))
                     (Zmod.mul (aF ec) (Zmod.of_Z (q ec) u))) (bF ec).
Proof.
  unfold aF, bF. replace (u ^ 3) with (u * u * u) by ring.
  rewrite !Zmod.of_Z_add, !Zmod.of_Z_mul. reflexivity.
Qed.

Lemma valid_onc p : is_valid ec p = true -> onc (aF ec) (bF ec) (emb ec p).
Proof.
  unfold is_valid, emb. destruct (Coord_eqb p zero); [intros; exact I|].
  intros H. apply Z.eqb_eq in H. cbn [onc].
  rewrite <- ofZ_cubic, <- Zmod.of_Z_mul. apply Zmod.of_Z_inj.
  replace (y p * y p) with (y p ^ 2) by ring. exact H.
Qed.

Lemma onc_valid p : onc (aF ec) (bF ec) (emb ec p) -> is_valid ec p = true.
Proof.
  unfold is_valid, emb. destruct (Coord_eqb p zero); [reflexivity|].
  cbn [onc]. rewrite <- ofZ_cubic, <- Zmod.of_Z_mul. intros H. apply Zmod.of_Z_inj in H.
  apply Z.eqb_eq. replace (y p ^ 2) with (y p * y p) by ring. exact H.
Qed.

Lemma origin_not_onc : ~ onc (aF ec) (bF ec) (Aff (Zmod.of_Z (q ec) 0) (Zmod.of_Z (q ec) 0)).
Proof.
  cbn [onc]. rewrite <- ofZ_cubic, <- Zmod.of_Z_mul. intros H. apply Zmod.of_Z_inj in H.
  destruct Hwf as (_ & Hb & _). rewrite Z.mul_0_l, Zmod_0_l in H.
  replace (0 ^ 3 + a ec * 0 + b ec) with (b ec) in H by ring.
  rewrite Z.mod_small in H by lia. lia.
Qed.

Lemma emb_mk u v : onc (aF ec) (bF ec) (Aff (Zmod.of_Z (q ec) u) (Zmod.of_Z (q ec) v)) ->
  emb ec (mkCoord u v) = Aff (Zmod.of_Z (q ec) u) (Zmod.of_Z (q ec) v).
Proof.
  intros H. unfold emb. destruct (Coord_eqb (mkCoord u v) zero) eqn:E; [|reflexivity].
  apply Coord_eqb_eq in E. injection E as -> ->. contradiction (origin_not_onc H).
Qed.

Lemma emb_inj p1 p2 : in_range_pt ec p1 -> in_range_pt ec p2 ->
  emb ec p1 = emb ec p2 -> p1 = p2.
Proof.
  intros [H1x H1y] [H2x H2y]. unfold emb.
  destruct (Coord_eqb p1 zero) eqn:E1, (Coord_eqb p2 zero) eqn:E2; try discriminate.
  - apply Coord_eqb_eq in E1, E2. congruence.
  - intros H.
    pose proof (f_equal (fun P => match P with Aff u _ => u | Inf => Zmod.zero end) H) as Hx.
    pose proof (f_equal (fun P => match P with Aff _ v => v | Inf => Zmod.zero end) H) as Hy.
    cbv beta iota in Hx, Hy. apply Zmod.of_Z_inj in Hx, Hy.
    rewrite !Z.mod_small in Hx, Hy by lia. destruct p1, p2; cbn in *; congruence.
Qed.

Lemma zero_in_range : in_range_pt ec zero.
Proof. pose proof q_gt_2. unfold in_range_pt, zero; cbn; lia. Qed.


Lemma q_ne_2 : q ec <> 2.
Proof. pose proof q_gt_2. lia. Qed.

Lemma nz_double u : 0 < u < q ec -> (2 * u) mod q ec <> 0.
Proof.
  intros Hu H. pose proof q_gt_2 as Hq. apply Z.mod_divide in H; [|lia].
  apply Z.divide_prime_mul in H; [|exact Hp]. destruct H as [H|H].
  - apply Z.divide_pos_le in H; lia.
  - apply Z.divide_pos_le in H; lia.
Qed.

Lemma nz_diff u v : 0 <= u < q ec -> 0 <= v < q ec -> u <> v -> (v - u) mod q ec <> 0.
Proof.
  intros Hu Hv Huv H. pose proof q_gt_2 as Hq. apply Z.mod_divide in H; [|lia].
  destruct H as [k Hk]. assert (k = 0) by nia. subst k. lia.
Qed.

Lemma add_bridge p1 p2 : in_range_pt ec p1 -> in_range_pt ec p2 ->
  is_valid ec p1 = true -> is_valid ec p2 = true ->
  in_range_pt ec (add ec p1 p2) /\
  emb ec (add ec p1 p2) = addF (aF ec) (emb ec p1) (emb ec p2).
Proof.
  intros R1 R2 V1 V2. pose proof q_gt_2 as Hq.
  pose proof (valid_onc _ V1) as O1. pose proof (valid_onc _ V2) as O2.
  pose proof (addF_onc (q ec) Hp q_ne_2 (aF ec) (bF ec) _ _ O1 O2) as O3.
  revert O1 O2 O3. unfold add, emb.
  destruct (Coord_eqb p1 zero) eqn:Z1; [auto|].
  destruct (Coord_eqb p2 zero) eqn:Z2.
  { intros _ _ _. split; [exact R1|]. rewrite Z1. reflexivity. }
  destruct p1 as [x1 y1], p2 as [x2 y2]. destruct R1 as [R1x R1y], R2 as [R2x R2y].
  cbn [x y] in *. cbn [addF].
  rewrite !ofZ_eqb, !ofZ_eqb0 by assumption.
  destruct ((x1 =? x2) && (negb (y1 =? y2) || (y1 =? 0))) eqn:C.
  { intros _ _ _. split; [apply zero_in_range|reflexivity]. }
  set (LF := if x1 =? x2 then _ else _).
  set (l := if x1 =? x2 then _ else _).
  assert (HL : Zmod.of_Z (q ec) l = LF).
  { subst l LF. destruct (Z.eqb_spec x1 x2) as [<-|Hx].
    - cbn [andb] in C. apply orb_false_iff in C as [C1 C2].
      apply negb_false_iff, Z.eqb_eq in C1. apply Z.eqb_neq in C2. subst y2.
      rewrite Zmod.of_Z_mod, Zmod.of_Z_mul, ofZ_inv_z by (apply nz_double; lia).
      rewrite !Zmod.of_Z_add, !Zmod.of_Z_mul, ofZ_2, ofZ_3. reflexivity.
    - rewrite Zmod.of_Z_mod, Zmod.of_Z_mul, ofZ_inv_z by (apply nz_diff; auto).
      rewrite !Zmod.of_Z_sub. reflexivity. }
  clearbody l LF. cbv zeta. intros _ _ O3.
  assert (EX : Zmod.of_Z (q ec) ((l * l - x1 - x2) mod q ec) =
               Zmod.sub (Zmod.sub (Zmod.mul LF LF) (Zmod.of_Z (q ec) x1)) (Zmod.of_Z (q ec) x2)).
  { rewrite Zmod.of_Z_mod, !Zmod.of_Z_sub, Zmod.of_Z_mul, HL. reflexivity. }
  assert (EY : Zmod.of_Z (q ec) ((l * (x1 - (l * l - x1 - x2) mod q ec) - y1) mod q ec) =
               Zmod.sub (Zmod.mul LF (Zmod.sub (Zmod.of_Z (q ec) x1)
                   (Zmod.sub (Zmod.sub (Zmod.mul LF LF) (Zmod.of_Z (q ec) x1)) (Zmod.of_Z (q ec) x2))))
                 (Zmod.of_Z (q ec) y1)).
  { rewrite Zmod.of_Z_mod, Zmod.of_Z_sub, Zmod.of_Z_mul, Zmod.of_Z_sub, EX, HL. reflexivity. }
  rewrite <- EY, <- EX in O3 |- *.
  split; [unfold in_range_pt; cbn [x y]; split; apply Z.mod_pos_bound; lia|].
  fold (emb ec (mkCoord ((l * l - x1 - x2) mod q ec) ((l * (x1 - (l * l - x1 - x2) mod q ec) - y1) mod q ec))).
  apply emb_mk. exact O3.
Qed.

End Bridge.

Section Bridge2.
Variable ec : EC.
Hypothesis Hwf : wf_EC ec.
Hypothesis Hp : Z.prime (q ec).

Lemma neg_bridge p : in_range_pt ec p ->
  in_range_pt ec (neg ec p) /\ emb ec (neg ec p) = negF (emb ec p).
Proof.
  intros [Rx Ry]. pose proof (q_gt_2 ec Hwf) as Hq.
  split; [unfold in_range_pt, neg; cbn [x y]; split; [lia|apply Z.mod_pos_bound; lia]|].
  unfold emb, neg. cbn [x y].
  destruct (Coord_eqb p zero) eqn:Z0.
  - apply Coord_eqb_eq in Z0. subst p. reflexivity.
  - destruct (Coord_eqb (mkCoord (x p) ((- y p) mod q ec)) zero) eqn:Z1.
    + exfalso. apply Coord_eqb_eq in Z1. injection Z1 as Hx Hy.
      apply Coord_eqb_neq in Z0. apply Z0. destruct p as [x0 y0]; cbn [x y] in *. subst x0.
      assert (y0 = 0).
      { destruct (Z.eq_dec y0 0) as [|Hn]; [assumption|].
        rewrite Z_mod_nz_opp_full in Hy by (rewrite Z.mod_small; lia).
        rewrite Z.mod_small in Hy; lia. }
      subst y0. reflexivity.
    + cbn [negF]. rewrite Zmod.of_Z_mod, Zmod.of_Z_opp. reflexivity.
Qed.

Lemma valid_in_range_closed_add p1 p2 :
  in_range_pt ec p1 -> in_range_pt ec p2 -> is_valid ec p1 = true -> is_valid ec p2 = true ->
  in_range_pt ec (add ec p1 p2) /\ is_valid ec (add ec p1 p2) = true.
Proof.
  intros R1 R2 V1 V2. destruct (add_bridge ec Hwf Hp p1 p2 R1 R2 V1 V2) as [R3 E3].
  split; [exact R3|]. apply (onc_valid ec). rewrite E3.
  apply (addF_onc (q ec) Hp (q_ne_2 ec Hwf) (aF ec) (bF ec)); apply valid_onc; assumption.
Qed.

Lemma mul_loop_closed n : forall r m2,
  in_range_pt ec r -> in_range_pt ec m2 -> is_valid ec r = true -> is_valid ec m2 = true ->
  in_range_pt ec (mul_loop ec r m2 n) /\ is_valid ec (mul_loop ec r m2 n) = true.
Proof.
  induction n as [n IH|n IH|]; intros r m2 R1 R2 V1 V2; cbn [mul_loop].
  - destruct (valid_in_range_closed_add r m2 R1 R2 V1 V2) as [R3 V3].
    destruct (valid_in_range_closed_add m2 m2 R2 R2 V2 V2) as [R4 V4].
    apply IH; assumption.
  - destruct (valid_in_range_closed_add m2 m2 R2 R2 V2 V2) as [R4 V4].
    apply IH; assumption.
  - apply valid_in_range_closed_add; assumption.
Qed.

Lemma mul_closed p n : in_range_pt ec p -> is_valid ec p = true ->
  in_range_pt ec (mul ec p n) /\ is_valid ec (mul ec p n) = true.
Proof.
  intros R V. unfold mul. destruct n as [|n|n]; [| |].
  - split; [apply zero_in_range, Hwf|reflexivity].
  - apply mul_loop_closed; [apply zero_in_range, Hwf|exact R|reflexivity|exact V].
  - split; [apply zero_in_range, Hwf|reflexivity].
Qed.

Lemma disc_nz : (4 * a ec ^ 3 + 27 * b ec ^ 2) mod q ec <> 0 -> disc (aF ec) (bF ec) <> Zmod.zero.
Proof.
  intros H. unfold disc, aF, bF. rewrite <- (ofZ_2 ec), <- (ofZ_3 ec), <- !Zmod.of_Z_mul,
    <- Zmod.of_Z_add.
  apply Zmod.of_Z_nz. replace (2 * 2 * a ec * a ec * a ec + 3 * 3 * 3 * b ec * b ec)
    with (4 * a ec ^ 3 + 27 * b ec ^ 2) by ring. exact H.
Qed.

End Bridge2.

(** ** Small primes by trial division *)

Lemma prime_check p : 1 < p ->
  forallb (fun n => negb (p mod (Z.of_nat n + 2) =? 0)) (seq 0 (Z.to_nat (p - 2))) = true ->
  Z.prime p.
Proof.
  intros Hp H. split; [exact Hp|]. intros n Hn Hd.
  rewrite forallb_forall in H. specialize (H (Z.to_nat (n - 2))).
  rewrite in_seq in H. rewrite Z2Nat.id in H by lia.
  replace (n - 2 + 2) with n in H by lia.
  apply Z.mod_divide in Hd; [|lia]. rewrite Hd in H.
  discriminate H. lia.
Qed.

(** * The claims *)

(** ** C2 *)

(** C2: for a valid plaintext point and a valid public key and every
    nonce [r >= 0], [enc2] returns [(mul(g, r), add(plain, mul(pub, r)))]
    and the masking-only [enc] returns [add(plain, mul(pub, r))]. *)
Theorem enc_enc2_spec (eg : ElGamal) (plain pub : Coord) (r : Z)
  (Hplain : is_valid (eg_ec eg) plain = true)
  (Hpub : is_valid (eg_ec eg) pub = true) (Hr : 0 <= r) :
  enc2 eg plain pub r =
    Ok (mul (eg_ec eg) (eg_g eg) r, add (eg_ec eg) plain (mul (eg_ec eg) pub r)) /\
  enc eg plain pub r = Ok (add (eg_ec eg) plain (mul (eg_ec eg) pub r)).
Proof.
  unfold enc2, enc. rewrite Hplain, Hpub. split; reflexivity.
Qed.

(** ** C5 *)

(** C5: for [x < q] where [at(x)] succeeds it returns [(x, y)] and
    [(x, q - y)], both valid, with [neg (x, y) = (x, q - y)]; when
    [x^3 + a x + b mod q] has no square root it fails with [NotFound]. *)
Theorem at_spec (ec : EC) (x0 : Z) (Hwf : wf_EC ec) (Hx : x0 < q ec) :
  (forall p1 p2, at' ec x0 = Ok (p1, p2) ->
     exists y0, p1 = mkCoord x0 y0 /\ p2 = mkCoord x0 (q ec - y0) /\
       is_valid ec p1 = true /\ is_valid ec p2 = true /\ neg ec p1 = p2) /\
  ((forall y0, (y0 * y0) mod q ec <> (x0 ^ 3 + a ec * x0 + b ec) mod q ec) ->
     at' ec x0 = Err NotFound).
Proof.
  destruct Hwf as (Ha & Hb & Hq).
  set (ysq := (x0 ^ 3 + a ec * x0 + b ec) mod q ec).
  assert (Hlt : (ysq <? q ec) = true).
  { apply Z.ltb_lt. apply Z.mod_pos_bound. lia. }
  unfold at', sqrt. rewrite (proj2 (Z.ltb_lt _ _) Hx). cbn [assert bind].
  fold ysq. rewrite Hlt. cbn [assert bind]. split.
  - intros p1 p2 H.
    destruct (sqrt_scan (Z.to_nat (q ec - 1)) 1 ysq (q ec)) as [[u v]|] eqn:E;
      [|discriminate].
    cbn in H. injection H as <- <-.
    apply sqrt_scan_some in E as (-> & Hu & Hr).
    exists u. split; [reflexivity|split; [reflexivity|]].
    assert (Hsq : forall w, (w ^ 2) mod q ec = ysq ->
                  is_valid ec (mkCoord x0 w) = true).
    { intros w Hw. unfold is_valid. destruct (Coord_eqb _ _); [reflexivity|].
      cbn [x y]. apply Z.eqb_eq. rewrite Hw. reflexivity. }
    split; [|split].
    + apply Hsq. rewrite Z.pow_2_r. exact Hu.
    + apply Hsq. rewrite <- Hu.
      replace ((q ec - u) ^ 2) with (u * u + (q ec - 2 * u) * q ec) by ring.
      apply Z.mod_add. lia.
    + unfold neg. cbn [x y]. f_equal.
      rewrite Z2Nat.id in Hr by lia.
      rewrite Z.mod_opp_l_nz by (try lia; rewrite Z.mod_small; lia).
      rewrite Z.mod_small by lia. reflexivity.
  - intros Hno. rewrite sqrt_scan_none by exact Hno. reflexivity.
Qed.

(** ** C6 *)

(** C6: for a valid [g <> zero], [order(g)] returns [k] exactly when [k]
    is the least [k >= 1] with [mul(g, k) = zero], found by a scan up to
    [q]; it raises exactly when no [k] in [1..q] has [mul(g, k) = zero]. *)
Theorem order_spec (ec : EC) (g : Coord) (Hwf : wf_EC ec)
  (Hg : is_valid ec g = true) (Hnz : g <> zero) :
  (forall k, order ec g = Ok k <->
     1 <= k <= q ec /\ mul ec g k = zero /\
     (forall j, 1 <= j < k -> mul ec g j <> zero)) /\
  (forall e, order ec g = Err e <->
     e = InvalidOrder /\ (forall k, 1 <= k <= q ec -> mul ec g k <> zero)).
Proof.
  destruct Hwf as (_ & _ & Hq).
  unfold order. rewrite Hg, (proj2 (Coord_eqb_neq g zero) Hnz). cbn [negb andb assert bind].
  split.
  - intros k. rewrite order_scan_ok, Z2Nat.id by lia.
    split; intros (H1 & H2 & H3); (split; [lia|split; [exact H2|exact H3]]).
  - intros e. rewrite order_scan_err, Z2Nat.id by lia.
    split; intros [He H]; (split; [exact He|intros k Hk; apply H; lia]).
Qed.

(** ** C7 *)

(** C7 as stated fails: [inv(2, 4)] does not fail although
    [gcd(2, 4) = 2], it returns [1], and [2 * 1] is not [1] modulo [4]. *)
Lemma inv_non_coprime_counterexample :
  ~ (forall n q0,
       (Z.gcd n q0 <> 1 -> exists e, inv n q0 = Err e) /\
       (Z.gcd n q0 = 1 -> exists s, inv n q0 = Ok s /\ (n * s) mod q0 = 1 mod q0)).
Proof.
  intros H. destruct (H 2 4) as [H1 _].
  destruct (H1 ltac:(discriminate)) as [e He]. discriminate He.
Qed.

(** C7 (amended): [inv(n, q)] raises only for [q = 0]
    ([ZeroDivisionError]); for [q > 0] it never fails and returns some
    [s] in [[0, q)], and [n * s] is congruent to [1] modulo [q] exactly
    when [gcd(n, q) = 1]. *)
Theorem inv_spec (n q0 : Z) :
  (forall e, inv n q0 = Err e <-> q0 = 0 /\ e = ZeroDivisionError) /\
  (0 < q0 -> exists s, inv n q0 = Ok s /\ 0 <= s < q0 /\
     ((n * s) mod q0 = 1 mod q0 <-> Z.gcd n q0 = 1)).
Proof.
  split.
  - intros e. unfold inv. destruct (Z.eqb_spec q0 0) as [->|Hq].
    + split; [intros H; injection H as <-; auto|intros [_ ->]; reflexivity].
    + split; [discriminate|intros [H _]; contradiction].
  - intros Hq. rewrite inv_nonzero by lia.
    destruct (inv_z_mul n q0 Hq) as [Hm Hr].
    exists (inv_z n q0). split; [reflexivity|split; [exact Hr|]].
    rewrite Hm.
    pose proof (Z.gcd_nonneg n q0) as Hg0.
    assert (Hgpos : 0 < Z.gcd n q0).
    { destruct (Z.eq_dec (Z.gcd n q0) 0) as [H0|H0]; [|lia].
      apply Z.gcd_eq_0 in H0. lia. }
    assert (Hgle : Z.gcd n q0 <= q0).
    { apply Z.divide_pos_le; [exact Hq|apply Z.gcd_divide_r]. }
    split; [|intros ->; reflexivity].
    intros Heq. destruct (Z.eq_dec (Z.gcd n q0) q0) as [Hgq|Hgq].
    + rewrite Hgq, Z.mod_same in Heq by lia.
      destruct (Z.eq_dec q0 1) as [->|Hq1]; [exact Hgq|].
      rewrite Z.mod_small in Heq by lia. discriminate.
    + rewrite Z.mod_small in Heq by lia.
      destruct (Z.eq_dec q0 1) as [->|Hq1]; [lia|].
      rewrite Z.mod_small in Heq by lia. exact Heq.
Qed.

(** ** C8 *)

(** The curve [EC(2, 2, 3)]: [x^3 + 2 x + 2] is [2] at every [x], a
    non-residue modulo [3], so [at] fails everywhere. *)
Definition ec_2_2_3 : EC := mkEC 2 2 3.

(** C8 as stated fails: on the curve [EC(2, 2, 3)], which [make_EC]
    accepts, encoding ["H"] returns the list [[None]]: the character whose
    window has no point leaves a [None] in its place, and no count or list
    of skipped characters is returned. *)
Lemma koblitz_skip_counterexample :
  make_EC 2 2 3 = Ok ec_2_2_3 /\
  map_to_points_koblitz (ords "H") ec_2_2_3 = [None].
Proof. split; vm_compute; reflexivity. Qed.

(** C8 (amended): Koblitz encoding never raises and returns one entry per
    code point; the entry of code point [m] is [Some p] for the first
    [j] in [1..19] at which [at((m * 20 + j) mod q)] succeeds with first
    point [p], and [None] when no [j] in the window succeeds; no separate
    count or list of skipped characters is produced. *)
Theorem koblitz_spec (ec : EC) (message : list Z) (Hwf : wf_EC ec) :
  List.length (map_to_points_koblitz message ec) = List.length message /\
  forall i m, nth_error message i = Some m ->
    (forall p, nth_error (map_to_points_koblitz message ec) i = Some (Some p) <->
       exists j p', 1 <= j <= max_bits - 1 /\
         at' ec ((m * max_bits + j) mod q ec) = Ok (p, p') /\
         (forall j', 1 <= j' < j ->
            is_ok (at' ec ((m * max_bits + j') mod q ec)) = false)) /\
    (nth_error (map_to_points_koblitz message ec) i = Some None <->
       (forall j, 1 <= j <= max_bits - 1 ->
          is_ok (at' ec ((m * max_bits + j) mod q ec)) = false)).
Proof.
  destruct Hwf as (_ & _ & Hq).
  assert (Htry : forall m j,
    is_ok (koblitz_try m ec j) = is_ok (at' ec ((m * max_bits + j) mod q ec))).
  { intros m j. rewrite koblitz_try_at by lia.
    destruct (at' ec _); reflexivity. }
  unfold map_to_points_koblitz. split; [apply length_map|].
  intros i m Hi. rewrite nth_error_map, Hi. cbn [option_map].
  assert (Hs : forall p, map_to_point_koblitz m ec = Some p <->
    exists j, 1 <= j < 1 + 19 /\ koblitz_try m ec j = Ok p /\
      (forall j', 1 <= j' < j -> is_ok (koblitz_try m ec j') = false)).
  { intros p. apply koblitz_scan_some. }
  assert (Hn : map_to_point_koblitz m ec = None <->
    (forall j, 1 <= j < 1 + 19 -> is_ok (koblitz_try m ec j) = false)).
  { apply koblitz_scan_none. }
  replace (max_bits - 1) with 19 by reflexivity. split.
  - intros p. split.
    + intros H. injection H as H. apply Hs in H as (j & Hj & Hp & Hm).
      rewrite koblitz_try_at in Hp by lia.
      destruct (at' ec _) as [[p1 p2]|e] eqn:E; [|discriminate].
      injection Hp as <-. exists j, p2. split; [lia|].
      split; [exact E|]. intros j' Hj'. rewrite <- Htry. apply Hm; lia.
    + intros (j & p' & Hj & Hp & Hm). f_equal. apply Hs.
      exists j. split; [lia|].
      split; [rewrite koblitz_try_at, Hp by lia; reflexivity|].
      intros j' Hj'. rewrite Htry. apply Hm; lia.
  - split.
    + intros H. injection H as H. pose proof (proj1 Hn H) as H0.
      intros j Hj. rewrite <- Htry. apply H0. lia.
    + intros H. f_equal. apply Hn. intros j Hj.
      rewrite Htry. apply H. lia.
Qed.

(** ** C10 *)

(** C10: for every scalar [k <= 0], negative ones included, [mul(p, k)]
    is [zero]: the loop body never runs. *)
Theorem mul_nonpos (ec : EC) (p : Coord) (k : Z) (Hk : k <= 0) :
  mul ec p k = zero.
Proof. unfold mul. destruct k; [reflexivity|lia|reflexivity]. Qed.

Lemma mul_nonpos_witness :
  -5 <= 0 /\ mul (mkEC 9 7 4093) (mkCoord 1 181) (-5) = zero.
Proof. split; [lia|apply (mul_nonpos (mkEC 9 7 4093) (mkCoord 1 181) (-5)); lia]. Defined.


(** ** C9 *)

Definition ec_9_7_4093 : EC := mkEC 9 7 4093.

(** The first point found by [get_eg_g] on [EC(9, 7, 4093)]: [at(0)]
    fails, [at(1)] gives [(1, 181)], whose order is [4093]. *)
Definition g_9_7_4093 : Coord := mkCoord 1 181.

Lemma get_eg_g_scan_err ec k i e :
  at' ec i = Err e -> get_eg_g_scan ec (S k) i = get_eg_g_scan ec k (i + 1).
Proof. intros H. cbn [get_eg_g_scan]. rewrite H. reflexivity. Qed.

Lemma get_eg_g_scan_found ec k i g g' o :
  at' ec i = Ok (g, g') -> order ec g = Ok o -> o <= q ec ->
  get_eg_g_scan ec (S k) i = Some g.
Proof.
  intros H Ho Hle. cbn [get_eg_g_scan]. rewrite H, Ho.
  rewrite (proj2 (Z.leb_le o (q ec)) Hle). reflexivity.
Qed.

Lemma order_g_9_7_4093 : order ec_9_7_4093 g_9_7_4093 = Ok 4093.
Proof. vm_compute. reflexivity. Qed.

Lemma get_eg_g_9_7_4093 : get_eg_g 4093 ec_9_7_4093 = Some g_9_7_4093.
Proof.
  assert (E : get_eg_g 4093 ec_9_7_4093 =
              get_eg_g_scan ec_9_7_4093 (S (S (Z.to_nat 4091))) 0)
    by reflexivity.
  rewrite E, (get_eg_g_scan_err _ _ _ NotFound) by (vm_compute; reflexivity).
  apply (get_eg_g_scan_found _ _ _ _ (mkCoord 1 3912) 4093).
  - vm_compute. reflexivity.
  - exact order_g_9_7_4093.
  - unfold ec_9_7_4093, q. lia.
Qed.

Lemma make_ElGamal_9_7_4093 :
  make_ElGamal ec_9_7_4093 g_9_7_4093 = Ok (mkElGamal ec_9_7_4093 g_9_7_4093 4093).
Proof.
  unfold make_ElGamal.
  replace (is_valid ec_9_7_4093 g_9_7_4093) with true by (vm_compute; reflexivity).
  cbn [assert bind]. rewrite order_g_9_7_4093. reflexivity.
Qed.

Lemma round_trip_unfold a0 b0 q0 priv r message :
  round_trip a0 b0 q0 priv r message =
  let* ec := make_EC a0 b0 q0 in
  let* g := some_point (get_eg_g q0 ec) in
  let* eg := make_ElGamal ec g in
  let* points := mapM some_point (map_to_points_koblitz message ec) in
  let pub := gen eg priv in
  let* ciphers := mapM (fun p => enc2 eg p pub r) points in
  let* plains := mapM (fun c => dec eg c priv) ciphers in
  map_to_chars (map x plains).
Proof. reflexivity. Qed.

(** C9: on [EC(9, 7, 4093)] with the base point of [get_eg_g], private
    key [5] and nonce [15], Koblitz-encoding ["HI"], encrypting every point
    with [enc2], decrypting every pair and decoding the x-coordinates with
    [round(x / 20)] gives back ["HI"]. *)
Theorem HI_round_trip : round_trip 9 7 4093 5 15 (ords "HI") = Ok (ords "HI").
Proof.
  rewrite round_trip_unfold.
  replace (make_EC 9 7 4093) with (@Ok EC ec_9_7_4093) by reflexivity.
  cbn [bind]. rewrite get_eg_g_9_7_4093. cbn [some_point bind].
  rewrite make_ElGamal_9_7_4093. cbn [bind].
  vm_compute. reflexivity.
Qed.

(** * Further properties of the code *)

(** X1: [egcd(a, b)] returns [(1, 0, a)] when [b <= 0] (the loop never
    runs); for [b > 0] it returns [(s, t, g)] with [a s + b t = g],
    [g = gcd(a, b) > 0], and [g] divides both [a] and [b]. *)
Theorem egcd_spec (a0 b0 : Z) :
  (b0 <= 0 -> egcd a0 b0 = (1, 0, a0)) /\
  (0 < b0 -> let '(s, t, g) := egcd a0 b0 in
     a0 * s + b0 * t = g /\ g = Z.gcd a0 b0 /\ 0 < g /\ (g | a0) /\ (g | b0)).
Proof.
  split.
  - intros Hb. unfold egcd, egcd_fuel.
    replace (Z.to_nat (2 * Z.log2 b0 + 3)) with 3%nat
      by (rewrite Z.log2_nonpos by exact Hb; reflexivity).
    cbn [egcd_loop]. rewrite (proj2 (Z.ltb_ge 0 b0) Hb). reflexivity.
  - intros Hb. pose proof (egcd_correct a0 b0 Hb) as He.
    destruct (egcd a0 b0) as [[s t] g]. destruct He as [Hl Hg].
    repeat split; [exact Hl|exact Hg| | |]; rewrite Hg.
    + pose proof (Z.gcd_nonneg a0 b0).
      destruct (Z.eq_dec (Z.gcd a0 b0) 0) as [H0|H0]; [|lia].
      apply Z.gcd_eq_0 in H0. lia.
    + apply Z.gcd_divide_l.
    + apply Z.gcd_divide_r.
Qed.

(** X2: [sqrt(n, q)] returns [(u, v)] exactly when [n < q] and [u] is the
    least [i] in [1 .. q-1] with [i * i % q == n]; then [v = q - u] and
    [v * v % q == n] too.  It raises [AssertionError] when [n >= q] and
    [NotFound] when [n < q] has no such root. *)
Theorem sqrt_spec (n q0 : Z) :
  (forall u v, sqrt n q0 = Ok (u, v) <->
     n < q0 /\ 1 <= u < q0 /\ (u * u) mod q0 = n /\ v = q0 - u /\
     (v * v) mod q0 = n /\ (forall j, 1 <= j < u -> (j * j) mod q0 <> n)) /\
  (forall e, sqrt n q0 = Err e <->
     (q0 <= n /\ e = AssertionError) \/
     (n < q0 /\ e = NotFound /\ forall j, 1 <= j < q0 -> (j * j) mod q0 <> n)).
Proof.
  assert (Hk : 1 < q0 -> 1 + Z.of_nat (Z.to_nat (q0 - 1)) = q0) by lia.
  assert (Hv : forall u, (u * u) mod q0 = n -> ((q0 - u) * (q0 - u)) mod q0 = n).
  { intros u Hu. rewrite <- Hu.
    replace ((q0 - u) * (q0 - u)) with (u * u + (q0 - 2 * u) * q0) by ring.
    destruct (Z.eq_dec q0 0) as [->|Hq0]; [rewrite !Z.mod_0_r; ring|].
    apply Z.mod_add; exact Hq0. }
  unfold sqrt. destruct (Z.ltb_spec n q0) as [Hn|Hn]; cbn [assert bind]; split.
  - intros u v. destruct (sqrt_scan _ 1 n q0) as [[u' v']|] eqn:E.
    + apply sqrt_scan_ok in E as (Hr & Hu & Hv' & Hm). split.
      * intros H; injection H as <- <-. subst v'.
        assert (1 < q0) by lia.
        repeat split; try lia; auto.
      * intros (_ & Hr' & Hu' & Hv'' & _ & Hm'). subst v v'.
        assert (u = u').
        { destruct (Z.lt_total u u') as [Hlt|[Heq|Hgt]]; [|exact Heq|].
          - exfalso. apply (Hm u); [lia|exact Hu'].
          - exfalso. apply (Hm' u'); [lia|exact Hu]. }
        subst u'. reflexivity.
    + split; [discriminate|].
      intros (_ & Hr & Hu & _ & _ & _). exfalso.
      rewrite sqrt_scan_none_iff in E. apply (E u); [|exact Hu]. lia.
  - intros e. destruct (sqrt_scan _ 1 n q0) as [[u' v']|] eqn:E.
    + split; [discriminate|]. intros [[Hq _]|(_ & _ & Hno)]; [lia|].
      apply sqrt_scan_ok in E as (Hr & Hu & _). exfalso. apply (Hno u'); [lia|exact Hu].
    + rewrite sqrt_scan_none_iff in E. split.
      * intros H; injection H as <-. right. repeat split; auto.
        intros j Hj. apply E.
        assert (1 < q0) by lia. lia.
      * intros [[Hq _]|(_ & -> & _)]; [lia|reflexivity].
  - intros u v. split; [discriminate|lia].
  - intros e. split.
    + intros H; injection H as <-. left. split; [lia|reflexivity].
    + intros [[_ ->]|(Hq & _)]; [reflexivity|lia].
Qed.

(** X3: [at(x)] never returns a point with [y = 0]: both points have
    [0 < y < q].  On a prime modulus, an [x < q] with
    [x^3 + a x + b = 0 (mod q)] raises [NotFound], so the points of order
    two are never produced. *)
Theorem at_prime_spec (ec : EC) (x0 : Z) (Hq : Z.prime (q ec)) :
  (forall p1 p2, at' ec x0 = Ok (p1, p2) -> 0 < y p1 < q ec /\ 0 < y p2 < q ec) /\
  (x0 < q ec -> (x0 ^ 3 + a ec * x0 + b ec) mod q ec = 0 -> at' ec x0 = Err NotFound).
Proof.
  pose proof (Z.prime_ge_2 _ Hq) as Hq2. split.
  - intros p1 p2 H. apply at_ok in H as (_ & u & -> & -> & Hu & _). cbn [y]. lia.
  - intros Hx H0. unfold at', sqrt. rewrite (proj2 (Z.ltb_lt _ _) Hx). cbn [assert bind].
    rewrite H0, (proj2 (Z.ltb_lt 0 (q ec)) ltac:(lia)). cbn [assert bind].
    rewrite (proj2 (sqrt_scan_none_iff _ _ _ _)); [reflexivity|].
    intros j Hj Hjj. apply Z.mod_divide in Hjj; [|lia].
    apply (Z.divide_prime_mul j j _ Hq) in Hjj.
    assert (Hd : (q ec | j)) by (destruct Hjj; assumption).
    apply Z.divide_pos_le in Hd; lia.
Qed.

(** X4: on a positive modulus, [neg] fixes [zero], returns a y-coordinate
    in [[0, q)], is an involution on points with [0 <= y < q], and keeps
    valid points valid. *)
Theorem neg_spec (ec : EC) (Hq : 0 < q ec) :
  neg ec zero = zero /\
  (forall p, 0 <= y (neg ec p) < q ec) /\
  (forall p, 0 <= y p < q ec -> neg ec (neg ec p) = p) /\
  (forall p, is_valid ec p = true -> is_valid ec (neg ec p) = true).
Proof.
  split; [apply neg_zero|]. split; [|split].
  - intros p. apply Z.mod_pos_bound, Hq.
  - intros [x0 y0] Hy. cbn [y] in Hy. unfold neg. cbn [x y]. f_equal.
    rewrite (Z.mod_eq (- y0) (q ec)) by lia.
    replace (- (- y0 - q ec * (- y0 / q ec))) with (y0 + (- y0 / q ec) * q ec) by ring.
    rewrite Z.mod_add, Z.mod_small by lia. reflexivity.
  - intros p Hv. destruct (Coord_eqb p zero) eqn:Ez.
    + apply Coord_eqb_eq in Ez. subst p. rewrite neg_zero. exact Hv.
    + unfold is_valid in *. rewrite Ez in Hv.
      destruct (Coord_eqb (neg ec p) zero); [reflexivity|].
      destruct p as [x0 y0]. unfold neg. cbn [x y] in *.
      apply Z.eqb_eq in Hv. apply Z.eqb_eq. rewrite <- Hv.
      rewrite !Z.pow_2_r, Z.mul_mod_idemp_l, Z.mul_mod_idemp_r by lia.
      f_equal. ring.
Qed.


(** X6: On a curve built by [EC(a, b, q)] with [q] prime, [add] of two valid
    points with coordinates in [[0, q)] is a valid point with coordinates
    in [[0, q)], and it does not depend on the order of the arguments. *)
Theorem add_closed (ec : EC) (p1 p2 : Coord) (Hwf : wf_EC ec) (Hp : Z.prime (q ec))
  (R1 : in_range_pt ec p1) (R2 : in_range_pt ec p2)
  (V1 : is_valid ec p1 = true) (V2 : is_valid ec p2 = true) :
  in_range_pt ec (add ec p1 p2) /\ is_valid ec (add ec p1 p2) = true /\
  add ec p1 p2 = add ec p2 p1.
Proof.
  split; [|split]; try apply valid_in_range_closed_add; auto.
  apply (emb_inj ec); try apply valid_in_range_closed_add; auto.
  rewrite (proj2 (add_bridge ec Hwf Hp p1 p2 R1 R2 V1 V2)),
          (proj2 (add_bridge ec Hwf Hp p2 p1 R2 R1 V2 V1)).
  apply (addF_comm (q ec) Hp (q_ne_2 ec Hwf) (aF ec) (bF ec)); apply valid_onc; assumption.
Qed.

(** X7: On a curve built by [EC(a, b, q)] with [q] prime that [is_valid_eg]
    accepts ([4 a^3 + 27 b^2] not a multiple of [q]), adding [p2] and then
    [neg(p2)] gives back [p1], for valid points with coordinates in
    [[0, q)]. *)
Theorem add_neg_cancel (ec : EC) (p1 p2 : Coord) (Hwf : wf_EC ec) (Hp : Z.prime (q ec))
  (Hdisc : is_valid_eg (a ec) (b ec) (q ec) = Ok true)
  (R1 : in_range_pt ec p1) (R2 : in_range_pt ec p2)
  (V1 : is_valid ec p1 = true) (V2 : is_valid ec p2 = true) :
  add ec (add ec p1 p2) (neg ec p2) = p1.
Proof.
  assert (Hd : (4 * a ec ^ 3 + 27 * b ec ^ 2) mod q ec <> 0).
  { unfold is_valid_eg, pymod in Hdisc. destruct (q ec =? 0); [discriminate|].
    cbn [bind] in Hdisc. injection Hdisc as H. apply negb_true_iff, Z.eqb_neq in H. exact H. }
  destruct (valid_in_range_closed_add ec Hwf Hp p1 p2 R1 R2 V1 V2) as [R3 V3].
  destruct (neg_bridge ec Hwf p2 R2) as [R4 E4].
  assert (V4 : is_valid ec (neg ec p2) = true).
  { apply (onc_valid ec). rewrite E4. apply (onc_negF (q ec) Hp (aF ec) (bF ec)). apply valid_onc; assumption. }
  destruct (valid_in_range_closed_add ec Hwf Hp _ _ R3 R4 V3 V4) as [R5 _].
  apply (emb_inj ec); [exact R5|exact R1|].
  rewrite (proj2 (add_bridge ec Hwf Hp _ _ R3 R4 V3 V4)), E4,
          (proj2 (add_bridge ec Hwf Hp p1 p2 R1 R2 V1 V2)).
  apply (addF_sub (q ec) Hp (q_ne_2 ec Hwf) (aF ec) (bF ec) (disc_nz ec Hd));
    apply valid_onc; assumption.
Qed.

(** X8: [mul] on [zero] gives [zero] for every scalar; [mul(p, 1)] is [p];
    and an even scalar halves on the doubled point:
    [mul(p, 2 n) == mul(add(p, p), n)], the first round of the loop. *)
Theorem mul_zero_double (ec : EC) :
  (forall n, mul ec zero n = zero) /\
  (forall p, mul ec p 1 = p) /\
  (forall p n, mul ec p (2 * n) = mul ec (add ec p p) n).
Proof.
  split; [|split].
  - intros [|n|n]; cbn [mul]; [reflexivity|apply mul_loop_zero|reflexivity].
  - intros p. reflexivity.
  - intros p [|n|n]; reflexivity.
Qed.

(** X9: On a curve built by [EC(a, b, q)] with [q] prime, [mul(p, n)] of a
    valid point with coordinates in [[0, q)] is, for every integer [n], a
    valid point with coordinates in [[0, q)]. *)
Theorem mul_valid (ec : EC) (p : Coord) (n : Z) (Hwf : wf_EC ec) (Hp : Z.prime (q ec))
  (R : in_range_pt ec p) (V : is_valid ec p = true) :
  in_range_pt ec (mul ec p n) /\ is_valid ec (mul ec p n) = true.
Proof. apply mul_closed; assumption. Qed.

(** X10: On a curve built by [EC(a, b, q)] with [q] prime, with a generator, a
    plain point and a public key that are valid with coordinates in
    [[0, q)]: [enc2] returns a pair of such points whose second component
    is the result of [enc], and [dec] of that pair, with any private key,
    passes its assertion and returns such a point. *)
Theorem enc2_dec_ok (eg : ElGamal) (plain pub : Coord) (r priv : Z)
  (Hwf : wf_EC (eg_ec eg)) (Hp : Z.prime (q (eg_ec eg)))
  (Rg : in_range_pt (eg_ec eg) (eg_g eg)) (Vg : is_valid (eg_ec eg) (eg_g eg) = true)
  (Rm : in_range_pt (eg_ec eg) plain) (Vm : is_valid (eg_ec eg) plain = true)
  (Rk : in_range_pt (eg_ec eg) pub) (Vk : is_valid (eg_ec eg) pub = true) :
  exists c1 c2 p,
    enc2 eg plain pub r = Ok (c1, c2) /\ enc eg plain pub r = Ok c2 /\
    dec eg (c1, c2) priv = Ok p /\
    in_range_pt (eg_ec eg) c1 /\ is_valid (eg_ec eg) c1 = true /\
    in_range_pt (eg_ec eg) c2 /\ is_valid (eg_ec eg) c2 = true /\
    in_range_pt (eg_ec eg) p /\ is_valid (eg_ec eg) p = true.
Proof.
  set (ec := eg_ec eg) in *.
  destruct (mul_closed ec Hwf Hp (eg_g eg) r Rg Vg) as [R1 V1].
  destruct (mul_closed ec Hwf Hp pub r Rk Vk) as [Rk' Vk'].
  destruct (valid_in_range_closed_add ec Hwf Hp _ _ Rm Rk' Vm Vk') as [R2 V2].
  destruct (mul_closed ec Hwf Hp (mul ec (eg_g eg) r) priv R1 V1) as [R3 V3].
  destruct (neg_bridge ec Hwf _ R3) as [R4 E4].
  assert (V4 : is_valid ec (neg ec (mul ec (mul ec (eg_g eg) r) priv)) = true).
  { apply (onc_valid ec). rewrite E4. apply (onc_negF (q ec) Hp (aF ec) (bF ec)). apply valid_onc; assumption. }
  destruct (valid_in_range_closed_add ec Hwf Hp _ _ R2 R4 V2 V4) as [R5 V5].
  exists (mul ec (eg_g eg) r), (add ec plain (mul ec pub r)),
    (add ec (add ec plain (mul ec pub r)) (neg ec (mul ec (mul ec (eg_g eg) r) priv))).
  split; [|split; [|split]].
  - unfold enc2. fold ec. rewrite Vm, Vk. reflexivity.
  - unfold enc. fold ec. rewrite Vm, Vk. reflexivity.
  - unfold dec. fold ec. rewrite V1, V2. reflexivity.
  - auto 10.
Qed.

(** X11: on a curve built by [EC(a, b, q)], a successful
    [map_to_points_ascii] returns one point per character, the point of
    character [c] having [x = ord(c)], [0 < y < q] and being valid; a
    character with [ord(c) >= q] anywhere in the message makes the whole
    call raise. *)
Theorem map_to_points_ascii_spec (ec : EC) (message : list Z) (Hwf : wf_EC ec) :
  (forall pts, map_to_points_ascii message ec = Ok pts ->
     Forall2 (fun c p => x p = c /\ 0 < y p < q ec /\ is_valid ec p = true) message pts) /\
  (forall c, In c message -> q ec <= c -> exists e, map_to_points_ascii message ec = Err e).
Proof.
  unfold map_to_points_ascii. split.
  - intros pts H. apply mapM_ok in H.
    eapply Forall2_impl; [|exact H]. intros c p Hp.
    cbv beta in Hp. revert Hp. destruct (at' ec c) as [[p1 p2]|e] eqn:E; cbn [bind]; [|discriminate].
    intros Hp. injection Hp as <-. cbn [fst].
    apply at_ok in E as (_ & u & -> & _ & Hu & Hr). cbn [x y].
    split; [reflexivity|split; [lia|apply is_valid_root, Hr]].
  - intros c Hin Hc. apply (mapM_some_err _ _ c Hin).
    unfold at'. rewrite (proj2 (Z.ltb_ge c (q ec)) Hc). reflexivity.
Qed.

(** X12: [encrypt_points2] succeeds exactly when every point is valid and,
    for a non-empty list, the public key is valid; it then returns
    [(mul(g, rand), add(p, mul(pub, rand)))] for every point [p], so every
    pair shares the first component and equal points give equal pairs.
    [encrypt_points] succeeds under the same condition with the second
    components alone, and both raise only [AssertionError]. *)
Theorem encrypt_points_spec (eg : ElGamal) (pub : Coord) (rand : Z) (points : list Coord) :
  let ec := eg_ec eg in
  (forall cs, encrypt_points2 points eg pub rand = Ok cs <->
     Forall (fun p => is_valid ec p = true) points /\ (points = [] \/ is_valid ec pub = true) /\
     cs = map (fun p => (mul ec (eg_g eg) rand, add ec p (mul ec pub rand))) points) /\
  (forall cs, encrypt_points points eg pub rand = Ok cs <->
     Forall (fun p => is_valid ec p = true) points /\ (points = [] \/ is_valid ec pub = true) /\
     cs = map (fun p => add ec p (mul ec pub rand)) points) /\
  (forall e, encrypt_points2 points eg pub rand = Err e -> e = AssertionError) /\
  (forall e, encrypt_points points eg pub rand = Err e -> e = AssertionError).
Proof.
  intros ec.
  assert (Hgen : forall B (f : Coord -> B) (g : Coord -> result B),
    (forall p, g p = if is_valid ec p && is_valid ec pub then Ok (f p) else Err AssertionError) ->
    (forall cs, mapM g points = Ok cs <->
       Forall (fun p => is_valid ec p = true) points /\
       (points = [] \/ is_valid ec pub = true) /\ cs = map f points) /\
    (forall e, mapM g points = Err e -> e = AssertionError)).
  { intros B f g Hg. split.
    - intros cs. rewrite mapM_ok. split.
      + intros H. induction H as [|p c ps cs' Hp Hps IH]; [repeat split; auto|].
        rewrite Hg in Hp. destruct (is_valid ec p) eqn:Ev, (is_valid ec pub) eqn:Epub;
          cbn in Hp; try discriminate.
        injection Hp as <-. destruct IH as (IH1 & _ & IH3).
        repeat split; [constructor; auto|right; reflexivity|cbn; f_equal; exact IH3].
      + intros (Hv & Hpub & ->). destruct Hpub as [->|Hpub]; [constructor|].
        induction Hv as [|p ps Hp Hps IH]; cbn; constructor; [|exact IH].
        rewrite Hg, Hp, Hpub. reflexivity.
    - intros e H. apply mapM_err in H as (u & _ & Hu). rewrite Hg in Hu.
      destruct (_ && _); [discriminate|]. injection Hu as <-. reflexivity. }
  assert (H2 := Hgen _ (fun p => (mul ec (eg_g eg) rand, add ec p (mul ec pub rand)))
                  (fun p => enc2 eg p pub rand)).
  assert (H1 := Hgen _ (fun p => add ec p (mul ec pub rand)) (fun p => enc eg p pub rand)).
  destruct H2 as [H2a H2b].
  { intros p. unfold enc2. fold ec. destruct (is_valid ec p), (is_valid ec pub); reflexivity. }
  destruct H1 as [H1a H1b].
  { intros p. unfold enc. fold ec. destruct (is_valid ec p), (is_valid ec pub); reflexivity. }
  unfold encrypt_points, encrypt_points2. auto.
Qed.

(** X13: [map_to_chars] succeeds exactly when every [round(x / 20)] is a
    code point, and returns those values; [x = 20 m + j] with
    [0 <= j < 20] decodes to [m] for [j < 10], to [m + 1] for [j > 10],
    and for [j = 10] to the even one of [m] and [m + 1]. *)
Theorem map_to_chars_spec :
  (forall xs cs, map_to_chars xs = Ok cs <->
     Forall2 (fun x0 c => c = round_div x0 max_bits /\ 0 <= c < 1114112) xs cs) /\
  (forall m j, 0 <= j < max_bits ->
     round_div (m * max_bits + j) max_bits =
       if j <? 10 then m else if 10 <? j then m + 1 else if Z.even m then m else m + 1).
Proof. split; [apply map_to_chars_ok|apply round_div_split]. Qed.


(** X15: on a curve built by [EC(a, b, q)], [get_eg_g(q0, ec)] returns the
    first point [at(i)[0]], [i] in [range(q0)], for which both [at(i)] and
    [order] succeed (the check [order <= q] never fails), and [None] when
    no [i] has both. *)
Theorem get_eg_g_spec (ec : EC) (q0 : Z) (Hwf : wf_EC ec) :
  (forall g, get_eg_g q0 ec = Some g <->
     exists i g', 0 <= i < q0 /\ at' ec i = Ok (g, g') /\ is_ok (order ec g) = true /\
       (forall i', 0 <= i' < i -> gen_ok ec i' = false)) /\
  (get_eg_g q0 ec = None <-> forall i, 0 <= i < q0 -> gen_ok ec i = false).
Proof.
  destruct Hwf as (_ & _ & Hq). unfold get_eg_g.
  assert (Hr : forall i, 0 <= i < 0 + Z.of_nat (Z.to_nat q0) <-> 0 <= i < q0) by lia.
  split.
  - intros g. rewrite get_eg_g_scan_spec by lia. split.
    + intros (i & g' & Hi & H). exists i, g'. split; [apply Hr, Hi|exact H].
    + intros (i & g' & Hi & H). exists i, g'. split; [apply Hr, Hi|exact H].
  - rewrite get_eg_g_scan_none by lia. split.
    + intros H i Hi. apply H, Hr, Hi.
    + intros H i Hi. apply H, Hr, Hi.
Qed.

(** X16: [validate_coffs] answers ["all right"] for every [a > 0] and
    [q > 0], also when [4 a^3 + 27 b^2] is a multiple of [q] and
    [is_valid_eg] reports the curve singular: its condition reduces only
    [27 b^2] modulo [q]. *)
Theorem validate_coffs_accepts (a0 b0 q0 : Z) (Ha : 0 < a0) (Hq : 0 < q0) :
  validate_coffs a0 b0 q0 = Ok true /\
  (is_valid_eg a0 b0 q0 = Ok false <-> (4 * a0 ^ 3 + 27 * b0 ^ 2) mod q0 = 0).
Proof.
  unfold validate_coffs, is_valid_eg, pymod.
  rewrite (proj2 (Z.eqb_neq q0 0)) by lia. cbn [bind]. split.
  - pose proof (Z.mod_pos_bound (27 * b0 ^ 2) q0 Hq).
    assert (0 < a0 ^ 3) by (apply Z.pow_pos_nonneg; lia).
    rewrite (proj2 (Z.eqb_neq _ 0)) by lia. reflexivity.
  - destruct (Z.eqb_spec ((4 * a0 ^ 3 + 27 * b0 ^ 2) mod q0) 0) as [H|H]; cbn.
    + split; [intros _; exact H|reflexivity].
    + split; [discriminate|contradiction].
Qed.


(** X18: The loop of [decrypt_message] that reads the tokens four at a time
    succeeds only on a number of tokens that is a multiple of four, all of
    them accepted by [int]; tokens all accepted by [int] whose number is
    not a multiple of four raise [IndexError]; and the text listing every
    pair as [(x1, y1) (x2, y2)] on a line of its own, with the integers
    written by [str], is read back as the same pairs. *)
Theorem parse_cipher_list_spec :
  (forall toks v, parse_cipher_list toks = POk v ->
     List.length toks = (4 * List.length v)%nat /\
     Forall (fun t => is_ok (py_int t) = true) toks) /\
  (forall toks, Forall (fun t => is_ok (py_int t) = true) toks ->
     (List.length toks mod 4 <> 0)%nat -> parse_cipher_list toks = IndexError) /\
  (forall cs, parse_cipher_list
     (py_split (filter_cipher_text (list_ascii_of_string (show_ciphers cs)))) = POk cs).
Proof.
  split; [exact parse_length|]. split; [exact parse_index_error|exact parse_show_ciphers].
Qed.

(** X19: On the text listing every cipher pair as [(x1, y1) (x2, y2)] on a line
    of its own, [decrypt_message] computes exactly [eg.dec(c, 5)] of every
    pair [c] in order, then [map_to_chars] of the x-coordinates of the
    results: the reader adds no exception of its own. *)
Theorem decrypt_show_ciphers (eg : ElGamal) (cs : list (Coord * Coord)) :
  decrypt_cipher_text eg (show_ciphers cs) =
  (let+ plain_points := lift (mapM (fun c => dec eg c 5) cs) in
   lift (map_to_chars (map x plain_points))).
Proof.
  unfold decrypt_cipher_text. rewrite parse_show_ciphers. reflexivity.
Qed.

(** ** Witnesses *)

Lemma enc_enc2_spec_witness :
  is_valid ec_9_7_4093 g_9_7_4093 = true /\
  enc2 (mkElGamal ec_9_7_4093 g_9_7_4093 4093) g_9_7_4093 (mkCoord 1 3912) 15 =
    Ok (mul ec_9_7_4093 g_9_7_4093 15,
        add ec_9_7_4093 g_9_7_4093 (mul ec_9_7_4093 (mkCoord 1 3912) 15)).
Proof.
  split; [vm_compute; reflexivity|].
  apply (enc_enc2_spec (mkElGamal ec_9_7_4093 g_9_7_4093 4093)); cbn [eg_ec];
    [vm_compute; reflexivity|vm_compute; reflexivity|lia].
Defined.

Lemma at_spec_witness :
  wf_EC ec_9_7_4093 /\
  at' ec_9_7_4093 1 = Ok (mkCoord 1 181, mkCoord 1 3912) /\
  neg ec_9_7_4093 (mkCoord 1 181) = mkCoord 1 3912.
Proof.
  assert (Hwf : wf_EC ec_9_7_4093) by (unfold wf_EC, ec_9_7_4093; cbn; lia).
  assert (Hat : at' ec_9_7_4093 1 = Ok (mkCoord 1 181, mkCoord 1 3912))
    by (vm_compute; reflexivity).
  split; [exact Hwf|split; [exact Hat|]].
  destruct (proj1 (at_spec ec_9_7_4093 1 Hwf ltac:(unfold ec_9_7_4093; cbn; lia))
              (mkCoord 1 181) (mkCoord 1 3912) Hat)
    as (y0 & _ & _ & _ & _ & Hn).
  exact Hn.
Defined.

(** The curve [y^2 = x^3 + 2 x + 3] modulo [5]. *)
Definition ec_2_3_5 : EC := mkEC 2 3 5.

Lemma order_spec_witness :
  order ec_2_3_5 (mkCoord 3 1) = Ok 3 /\ mul ec_2_3_5 (mkCoord 3 1) 3 = zero.
Proof.
  assert (Hwf : wf_EC ec_2_3_5) by (unfold wf_EC, ec_2_3_5; cbn; lia).
  pose proof (order_spec ec_2_3_5 (mkCoord 3 1) Hwf ltac:(vm_compute; reflexivity)
                ltac:(discriminate)) as [Hok _].
  split; [vm_compute; reflexivity|].
  apply (proj1 (Hok 3) ltac:(vm_compute; reflexivity)).
Defined.

Lemma koblitz_spec_witness :
  wf_EC ec_9_7_4093 /\
  List.length (map_to_points_koblitz (ords "HI") ec_9_7_4093) = 2%nat.
Proof.
  assert (Hwf : wf_EC ec_9_7_4093) by (unfold wf_EC, ec_9_7_4093; cbn; lia).
  split; [exact Hwf|].
  rewrite (proj1 (koblitz_spec ec_9_7_4093 (ords "HI") Hwf)). reflexivity.
Defined.

Lemma at_prime_spec_witness :
  Z.prime (q (mkEC 2 3 5)) /\
  (forall p1 p2, at' (mkEC 2 3 5) 2 = Ok (p1, p2) ->
     0 < y p1 < q (mkEC 2 3 5) /\ 0 < y p2 < q (mkEC 2 3 5)) /\
  (2 < q (mkEC 2 3 5) ->
     (2 ^ 3 + a (mkEC 2 3 5) * 2 + b (mkEC 2 3 5)) mod q (mkEC 2 3 5) = 0 ->
     at' (mkEC 2 3 5) 2 = Err NotFound).
Proof.
  assert (Hp : Z.prime (q (mkEC 2 3 5))) by (apply prime_check; vm_compute; reflexivity).
  split; [exact Hp|]. apply (at_prime_spec (mkEC 2 3 5) 2 Hp).
Defined.

Lemma neg_spec_witness :
  0 < q (mkEC 2 3 5) /\
  neg (mkEC 2 3 5) zero = zero /\
  (forall p, 0 <= y (neg (mkEC 2 3 5) p) < q (mkEC 2 3 5)) /\
  (forall p, 0 <= y p < q (mkEC 2 3 5) -> neg (mkEC 2 3 5) (neg (mkEC 2 3 5) p) = p) /\
  (forall p, is_valid (mkEC 2 3 5) p = true -> is_valid (mkEC 2 3 5) (neg (mkEC 2 3 5) p) = true).
Proof.
  split; [cbn; lia|]. apply (neg_spec (mkEC 2 3 5)). cbn; lia.
Defined.


Lemma add_closed_witness :
  wf_EC ec_1_1_5 /\ Z.prime (q ec_1_1_5) /\
  in_range_pt ec_1_1_5 (mkCoord 0 1) /\ in_range_pt ec_1_1_5 (mkCoord 2 1) /\
  is_valid ec_1_1_5 (mkCoord 0 1) = true /\ is_valid ec_1_1_5 (mkCoord 2 1) = true /\
  (in_range_pt ec_1_1_5 (add ec_1_1_5 (mkCoord 0 1) (mkCoord 2 1)) /\
   is_valid ec_1_1_5 (add ec_1_1_5 (mkCoord 0 1) (mkCoord 2 1)) = true /\
   add ec_1_1_5 (mkCoord 0 1) (mkCoord 2 1) = add ec_1_1_5 (mkCoord 2 1) (mkCoord 0 1)).
Proof.
  assert (Hwf : wf_EC ec_1_1_5) by (unfold wf_EC, ec_1_1_5; cbn; lia).
  assert (Hp : Z.prime (q ec_1_1_5)) by (apply prime_check; vm_compute; reflexivity).
  assert (R1 : in_range_pt ec_1_1_5 (mkCoord 0 1)) by (unfold in_range_pt, ec_1_1_5; cbn; lia).
  assert (R2 : in_range_pt ec_1_1_5 (mkCoord 2 1)) by (unfold in_range_pt, ec_1_1_5; cbn; lia).
  assert (V1 : is_valid ec_1_1_5 (mkCoord 0 1) = true) by (vm_compute; reflexivity).
  assert (V2 : is_valid ec_1_1_5 (mkCoord 2 1) = true) by (vm_compute; reflexivity).
  refine (conj Hwf (conj Hp (conj R1 (conj R2 (conj V1 (conj V2 _)))))).
  exact (add_closed ec_1_1_5 (mkCoord 0 1) (mkCoord 2 1) Hwf Hp R1 R2 V1 V2).
Defined.

Lemma add_neg_cancel_witness :
  wf_EC ec_1_1_5 /\ Z.prime (q ec_1_1_5) /\
  is_valid_eg (a ec_1_1_5) (b ec_1_1_5) (q ec_1_1_5) = Ok true /\
  in_range_pt ec_1_1_5 (mkCoord 0 1) /\ in_range_pt ec_1_1_5 (mkCoord 2 1) /\
  is_valid ec_1_1_5 (mkCoord 0 1) = true /\ is_valid ec_1_1_5 (mkCoord 2 1) = true /\
  add ec_1_1_5 (add ec_1_1_5 (mkCoord 0 1) (mkCoord 2 1)) (neg ec_1_1_5 (mkCoord 2 1)) =
    mkCoord 0 1.
Proof.
  assert (Hwf : wf_EC ec_1_1_5) by (unfold wf_EC, ec_1_1_5; cbn; lia).
  assert (Hp : Z.prime (q ec_1_1_5)) by (apply prime_check; vm_compute; reflexivity).
  assert (Hd : is_valid_eg (a ec_1_1_5) (b ec_1_1_5) (q ec_1_1_5) = Ok true)
    by (vm_compute; reflexivity).
  assert (R1 : in_range_pt ec_1_1_5 (mkCoord 0 1)) by (unfold in_range_pt, ec_1_1_5; cbn; lia).
  assert (R2 : in_range_pt ec_1_1_5 (mkCoord 2 1)) by (unfold in_range_pt, ec_1_1_5; cbn; lia).
  assert (V1 : is_valid ec_1_1_5 (mkCoord 0 1) = true) by (vm_compute; reflexivity).
  assert (V2 : is_valid ec_1_1_5 (mkCoord 2 1) = true) by (vm_compute; reflexivity).
  refine (conj Hwf (conj Hp (conj Hd (conj R1 (conj R2 (conj V1 (conj V2 _))))))).
  exact (add_neg_cancel ec_1_1_5 (mkCoord 0 1) (mkCoord 2 1) Hwf Hp Hd R1 R2 V1 V2).
Defined.

Lemma mul_valid_witness :
  wf_EC ec_1_1_5 /\ Z.prime (q ec_1_1_5) /\
  in_range_pt ec_1_1_5 (mkCoord 0 1) /\ is_valid ec_1_1_5 (mkCoord 0 1) = true /\
  (in_range_pt ec_1_1_5 (mul ec_1_1_5 (mkCoord 0 1) 7) /\
   is_valid ec_1_1_5 (mul ec_1_1_5 (mkCoord 0 1) 7) = true).
Proof.
  assert (Hwf : wf_EC ec_1_1_5) by (unfold wf_EC, ec_1_1_5; cbn; lia).
  assert (Hp : Z.prime (q ec_1_1_5)) by (apply prime_check; vm_compute; reflexivity).
  assert (R : in_range_pt ec_1_1_5 (mkCoord 0 1)) by (unfold in_range_pt, ec_1_1_5; cbn; lia).
  assert (V : is_valid ec_1_1_5 (mkCoord 0 1) = true) by (vm_compute; reflexivity).
  refine (conj Hwf (conj Hp (conj R (conj V _)))).
  exact (mul_valid ec_1_1_5 (mkCoord 0 1) 7 Hwf Hp R V).
Defined.

Lemma enc2_dec_ok_witness :
  make_ElGamal ec_1_1_5 (mkCoord 2 1) = Ok eg_1_1_5 /\
  exists c1 c2 p,
    enc2 eg_1_1_5 (mkCoord 0 1) (mkCoord 3 4) 3 = Ok (c1, c2) /\
    enc eg_1_1_5 (mkCoord 0 1) (mkCoord 3 4) 3 = Ok c2 /\
    dec eg_1_1_5 (c1, c2) 5 = Ok p /\
    in_range_pt (eg_ec eg_1_1_5) c1 /\ is_valid (eg_ec eg_1_1_5) c1 = true /\
    in_range_pt (eg_ec eg_1_1_5) c2 /\ is_valid (eg_ec eg_1_1_5) c2 = true /\
    in_range_pt (eg_ec eg_1_1_5) p /\ is_valid (eg_ec eg_1_1_5) p = true.
Proof.
  split; [vm_compute; reflexivity|].
  apply (enc2_dec_ok eg_1_1_5 (mkCoord 0 1) (mkCoord 3 4) 3 5).
  - unfold wf_EC, eg_1_1_5, ec_1_1_5; cbn; lia.
  - apply prime_check; vm_compute; reflexivity.
  - unfold in_range_pt, eg_1_1_5, ec_1_1_5; cbn; lia.
  - vm_compute; reflexivity.
  - unfold in_range_pt, eg_1_1_5, ec_1_1_5; cbn; lia.
  - vm_compute; reflexivity.
  - unfold in_range_pt, eg_1_1_5, ec_1_1_5; cbn; lia.
  - vm_compute; reflexivity.
Defined.

Lemma map_to_points_ascii_spec_witness :
  wf_EC (mkEC 9 7 4093) /\
  (forall pts, map_to_points_ascii [72; 4100] (mkEC 9 7 4093) = Ok pts ->
     Forall2 (fun c p => x p = c /\ 0 < y p < q (mkEC 9 7 4093) /\
                         is_valid (mkEC 9 7 4093) p = true) [72; 4100] pts) /\
  (forall c, In c [72; 4100] -> q (mkEC 9 7 4093) <= c ->
     exists e, map_to_points_ascii [72; 4100] (mkEC 9 7 4093) = Err e).
Proof.
  assert (Hwf : wf_EC (mkEC 9 7 4093)) by (unfold wf_EC; cbn; lia).
  split; [exact Hwf|]. apply (map_to_points_ascii_spec (mkEC 9 7 4093) [72; 4100] Hwf).
Defined.


Lemma get_eg_g_spec_witness :
  wf_EC (mkEC 9 7 4093) /\
  get_eg_g 4093 (mkEC 9 7 4093) = Some (mkCoord 1 181) /\
  exists i g', 0 <= i < 4093 /\ at' (mkEC 9 7 4093) i = Ok (mkCoord 1 181, g') /\
    is_ok (order (mkEC 9 7 4093) (mkCoord 1 181)) = true /\
    (forall i', 0 <= i' < i -> gen_ok (mkEC 9 7 4093) i' = false).
Proof.
  assert (Hwf : wf_EC (mkEC 9 7 4093)) by (unfold wf_EC; cbn; lia).
  assert (Hg : get_eg_g 4093 (mkEC 9 7 4093) = Some (mkCoord 1 181)) by (vm_compute; reflexivity).
  split; [exact Hwf|split; [exact Hg|]].
  apply (proj1 (get_eg_g_spec (mkEC 9 7 4093) 4093 Hwf) (mkCoord 1 181)), Hg.
Defined.

Lemma validate_coffs_accepts_witness :
  0 < 2 /\ 0 < 5 /\
  validate_coffs 2 2 5 = Ok true /\
  (is_valid_eg 2 2 5 = Ok false <-> (4 * 2 ^ 3 + 27 * 2 ^ 2) mod 5 = 0).
Proof.
  split; [lia|split; [lia|]]. apply (validate_coffs_accepts 2 2 5); lia.
Defined.
